(** * Anagramic squares (Project Euler 98): a shallow embedding of [main.py]

    The Python program groups the words of a word list into anagram
    classes ([get_anagramic_words]), does the same for the decimal forms
    of the squares that are short enough ([get_anagramic_squares]), and
    then searches, word by word and square by square, for the pair of
    anagramic words that a single letter-to-digit substitution sends onto
    two squares, keeping the pair with the largest square ([main]).

    Modelling conventions.
    - A Python [str] is a [string]; [list(s)] is [list_ascii_of_string]
      and [''.join(l)] is [string_of_list_ascii].  Characters are ASCII:
      [strip] and [upper] are modelled on the codes below 128 only, and
      the statements on the parsing that need it say so.
    - A Python [int] is a [Z].
    - A [dict] is an association list in insertion order, which is the
      order Python iterates it in; a [set] is a duplicate-free list (the
      order of a Python set is unspecified, the model picks insertion
      order, and the theorems on the search are stated for every order).
    - An exception is a value [Raise e] of the type [result]; loops stop
      at the first one.
    - Two expressions go through double-precision floats:
      [floor(10**(d_max/2))] at line 105 and [int(sqrt(s))] at line 196.
      Python computes the first one exactly, as the integer square root
      of [10^d_max], for [d_max <= 32]; from 33 on the result can be off
      (one too small at 33, nineteen too large at 35), and from 617 on
      the power overflows and the line raises [OverflowError].  The
      model has both readings: [get_anagramic_squares] and [main] take
      the two expressions at their mathematical values ([root_bound],
      [Z.sqrt]); [get_anagramic_squares_with] and [main_with] take them
      as parameters, functions that return an integer or raise, and what
      is proved of them holds whatever the floats give. *)

From Stdlib Require Import List Ascii String ZArith NArith Arith Bool Lia.
From Stdlib Require Import Permutation Sorted DecimalString DecimalZ Decimal.
Import ListNotations.

Local Open Scope string_scope.
Local Open Scope list_scope.

(** ** Exceptions *)

Inductive exn : Type :=
| AssertionError
| OSError
| KeyError
| ValueError
| TypeError
| OverflowError.

Inductive result (A : Type) : Type :=
| Ok (a : A)
| Raise (e : exn).

Arguments Ok {A} a.
Arguments Raise {A} e.

Definition bind {A B : Type} (m : result A) (k : A -> result B) : result B :=
  match m with
  | Ok a => k a
  | Raise e => Raise e
  end.

Notation "x <- m ;; k" := (bind m (fun x => k))
  (at level 61, m at next level, right associativity).

(** [for x in l: s = body(s, x)], stopping at the first exception. *)
Fixpoint for_each {A S : Type} (l : list A) (body : S -> A -> result S) (s : S)
  : result S :=
  match l with
  | [] => Ok s
  | x :: l' =>
      match body s x with
      | Ok s' => for_each l' body s'
      | Raise e => Raise e
      end
  end.

(** ** Python values, as far as the argument checks look at them *)

Inductive pyval : Type :=
| PyNone
| PyBool (b : bool)
| PyInt (z : Z)
| PyStr (s : string).

(** ** Sets: duplicate-free lists *)

Definition pyset := list string.

Definition set_mem (x : string) (s : pyset) : bool :=
  existsb (String.eqb x) s.

Definition set_add (x : string) (s : pyset) : pyset :=
  if set_mem x s then s else s ++ [x].

Fixpoint set_discard (x : string) (s : pyset) : pyset :=
  match s with
  | [] => []
  | y :: s' => if String.eqb x y then set_discard x s' else y :: set_discard x s'
  end.

(** ** Dictionaries: association lists in insertion order *)

Section Dict.
Context {K V : Type}.
Variable K_dec : forall x y : K, {x = y} + {x <> y}.

Definition dict := list (K * V).

Fixpoint dget (d : dict) (k : K) : option V :=
  match d with
  | [] => None
  | (k', v) :: d' => if K_dec k k' then Some v else dget d' k
  end.

(** [d[k] = v]: a present key keeps its place, a new one goes last. *)
Fixpoint dset (d : dict) (k : K) (v : V) : dict :=
  match d with
  | [] => [(k, v)]
  | (k', v') :: d' =>
      if K_dec k k' then (k', v) :: d' else (k', v') :: dset d' k v
  end.

(** [d.pop(k)] without default: [None] stands for the [KeyError]. *)
Fixpoint dpop (d : dict) (k : K) : option dict :=
  match d with
  | [] => None
  | (k', v) :: d' =>
      if K_dec k k' then Some d'
      else match dpop d' k with
           | Some d'' => Some ((k', v) :: d'')
           | None => None
           end
  end.

Definition dkeys (d : dict) : list K := map fst d.
Definition dvalues (d : dict) : list V := map snd d.

(** [f(d[k])] on a [defaultdict] whose factory yields [dflt]: the
    entry is created when it is missing, then updated in place. *)
Definition default_modify (d : dict) (k : K) (dflt : V) (f : V -> V) : dict :=
  match dget d k with
  | Some v => dset d k (f v)
  | None => dset d k (f dflt)
  end.
End Dict.

Arguments dict : clear implicits.

(** The two-level anagram table:
    length -> sorted form -> set of strings. *)
Definition inner_table := dict string pyset.
Definition table := dict nat inner_table.

Definition tget (t : table) (n : nat) (k : string) : option pyset :=
  match dget Nat.eq_dec t n with
  | Some inner => dget string_dec inner k
  | None => None
  end.

(** ** Strings *)

Definition chars (s : string) : list ascii := list_ascii_of_string s.
Definition join (l : list ascii) : string := string_of_list_ascii l.

Definition ascii_leb (a b : ascii) : bool :=
  (nat_of_ascii a <=? nat_of_ascii b)%nat.

Fixpoint insert_sorted (a : ascii) (l : list ascii) : list ascii :=
  match l with
  | [] => [a]
  | b :: l' => if ascii_leb a b then a :: l else b :: insert_sorted a l'
  end.

(** [sorted(l)] on characters: the ascending rearrangement by code
    point (which of the stable sorts computes it cannot be observed). *)
Fixpoint sorted (l : list ascii) : list ascii :=
  match l with
  | [] => []
  | a :: l' => insert_sorted a (sorted l')
  end.

(** [''.join(sorted(w))], the class key of a word or square string. *)
Definition class_key (w : string) : string := join (sorted (chars w)).

(** [str(z)] and [int(s)] on integers in decimal notation.  [int_] is
    only applied to the digit strings of the square table (line 186);
    the signs, blanks and underscores that Python's [int] accepts as
    well are not modelled. *)
Definition str_ (z : Z) : string := NilZero.string_of_int (Z.to_int z).

Definition int_ (s : string) : result Z :=
  match NilZero.int_of_string s with
  | Some d => Ok (Z.of_int d)
  | None => Raise ValueError
  end.

(** [s.strip()], [s.split(',')], [s.strip(q)] for the double quote [q],
    and [s.upper()], on ASCII characters: [is_space] is the white space
    of the codes below 128 and [upper_char] maps the letters a-z only.
    (Beyond ASCII, [strip] also removes the codes 133 and 160, and
    [upper] changes accented letters, some into characters that a byte
    cannot hold.) *)
Definition dquote : ascii := ascii_of_nat 34.

Definition is_space (c : ascii) : bool :=
  let n := nat_of_ascii c in
  ((9 <=? n) && (n <=? 13) || (28 <=? n) && (n <=? 32))%nat.

Fixpoint lstrip (p : ascii -> bool) (l : list ascii) : list ascii :=
  match l with
  | [] => []
  | c :: l' => if p c then lstrip p l' else l
  end.

Definition strip_by (p : ascii -> bool) (s : string) : string :=
  join (List.rev (lstrip p (List.rev (lstrip p (chars s))))).

Fixpoint split_on (sep : ascii) (l : list ascii) (cur : list ascii)
  : list string :=
  match l with
  | [] => [join (List.rev cur)]
  | c :: l' =>
      if Ascii.eqb c sep then join (List.rev cur) :: split_on sep l' []
      else split_on sep l' (c :: cur)
  end.

Definition upper_char (c : ascii) : ascii :=
  let n := nat_of_ascii c in
  if ((97 <=? n) && (n <=? 122))%nat then ascii_of_nat (n - 32) else c.

Definition upper (s : string) : string := join (map upper_char (chars s)).

(** Line 52: the word tokens of the first line of the file. *)
Definition parse_words (line : string) : list string :=
  map (fun s => upper (strip_by (Ascii.eqb dquote) s))
      (split_on ","%char (chars (strip_by is_space line)) []).

(** ** Grouping into anagram classes (lines 54-80 and 102-127)

    The two functions of the source share this code up to the names of
    their variables; the state of the loop is the table together with
    the set of the keys whose class is a singleton. *)

Definition group_state := (table * pyset)%type.

Definition group_step (st : group_state) (word : string) : group_state :=
  let '(anagram_sets, anagram_singletons) := st in
  let word_sorted := class_key word in
  let word_size := String.length word_sorted in
  let anagram_sets :=
    default_modify Nat.eq_dec anagram_sets word_size []
      (fun inner => default_modify string_dec inner word_sorted [] (set_add word)) in
  let word_set_size :=
    match tget anagram_sets word_size word_sorted with
    | Some cls => List.length cls
    | None => 0%nat
    end in
  if (word_set_size =? 2)%nat then
    (anagram_sets, set_discard word_sorted anagram_singletons)
  else if (word_set_size =? 1)%nat then
    (anagram_sets, set_add word_sorted anagram_singletons)
  else
    (anagram_sets, anagram_singletons).

(** One round of the purge: [anagram_sets[size].pop(key)], then the
    length entry itself when it has become empty.  The outer access is
    a [defaultdict] access: on a missing length it would create an empty
    inner table, whose [pop] raises. *)
Definition purge_step (anagram_sets : table) (anagram_singleton : string)
  : result table :=
  let anagram_size := String.length anagram_singleton in
  match dget Nat.eq_dec anagram_sets anagram_size with
  | None => Raise KeyError
  | Some inner =>
      match dpop string_dec inner anagram_singleton with
      | None => Raise KeyError
      | Some inner' =>
          if (List.length inner' =? 0)%nat then
            match dpop Nat.eq_dec anagram_sets anagram_size with
            | Some t' => Ok t'
            | None => Raise KeyError
            end
          else Ok (dset Nat.eq_dec anagram_sets anagram_size inner')
      end
  end.

Definition group_strings (l : list string) : result table :=
  let '(anagram_sets, anagram_singletons) := fold_left group_step l ([], []) in
  for_each anagram_singletons purge_step anagram_sets.

(** The file system, as far as line 51-52 reads it: the first line of
    the named file, when it can be opened. *)
Definition file_system := string -> option string.

Definition get_anagramic_words (fs : file_system) (filename : pyval)
  : result table :=
  match filename with
  | PyStr name =>
      match fs name with
      | Some line => group_strings (parse_words line)
      | None => Raise OSError
      end
  | _ => Raise AssertionError
  end.

(** [range(lo, hi)] *)
Definition py_range (lo hi : Z) : list Z :=
  map (fun i => (lo + Z.of_nat i)%Z) (seq 0 (Z.to_nat (hi - lo))).

(** [floor(10**(d_max/2))] at its mathematical value, which is the one
    Python's floats give for [d_max <= 32]. *)
Definition root_bound (d_max : Z) : Z := Z.sqrt (10 ^ d_max).

(** The strings the loop of line 105 inserts, in order. *)
Definition square_strings (d_max : Z) : list string :=
  map (fun x => str_ (x ^ 2)) (py_range 1 (root_bound d_max + 1)).

Definition get_anagramic_squares (d_max : pyval) : result table :=
  match d_max with
  | PyInt d => if (d >? 0)%Z then group_strings (square_strings d)
               else Raise AssertionError
  | _ => Raise AssertionError
  end.

(** The strings the loop of line 105 inserts when its bound evaluates
    to [b], in order. *)
Definition square_strings_upto (b : Z) : list string :=
  map (fun x => str_ (x ^ 2)) (py_range 1 (b + 1)).

(** [get_anagramic_squares], the float expression of line 105 being the
    parameter [floor_pow10_half]: on [d_max] it gives the integer that
    [floor(10**(d_max/2))] evaluates to, or the exception it raises. *)
Definition get_anagramic_squares_with (floor_pow10_half : Z -> result Z)
    (d_max : pyval) : result table :=
  match d_max with
  | PyInt d =>
      if (d >? 0)%Z then
        b <- floor_pow10_half d ;;
        group_strings (square_strings_upto b)
      else Raise AssertionError
  | _ => Raise AssertionError
  end.

(** ** The search (lines 150-196) *)

Definition pair := ((string * Z) * (string * Z))%type.

(** The state of the search: [s_best] and [p_best]. *)
Definition search_state := (Z * option pair)%type.

(** Line 154: the words of the table, in iteration order. *)
Definition all_words (t : table) : list string :=
  flat_map (fun v1 => flat_map (fun v2 : pyset => v2) (dvalues v1)) (dvalues t).

(** [max(d)] over the keys of a dictionary; empty argument: [ValueError]. *)
Definition max_key (t : table) : result nat :=
  match dkeys t with
  | [] => Raise ValueError
  | k :: ks => Ok (fold_left Nat.max ks k)
  end.

(** Line 160: for each length, the union of its classes.  The union is
    a fresh set, which Python may iterate in any order; here it comes
    class by class.  [search_loop] below takes the dictionary as an
    argument, for the statements that cover every order. *)
Definition squares_by_size_of (anagramic_squares : table) : dict nat pyset :=
  map (fun kv : nat * inner_table =>
         (fst kv,
          fold_left (fun acc v3 => set_add v3 acc)
                    (flat_map (fun v2 : pyset => v2) (dvalues (snd kv))) []))
      anagramic_squares.

(** [dict(zip(ks, vs))] *)
Definition dict_of_zip (ks vs : list ascii) : dict ascii ascii :=
  fold_left (fun d kv => dset ascii_dec d (fst kv) (snd kv)) (combine ks vs) [].

(** The guard of line 176, negated: the candidate goes on. *)
Definition is_bijection (w1 s1 : string) : bool :=
  let n := String.length w1 in
  let b := dict_of_zip (chars w1) (chars s1) in
  let b_inv := dict_of_zip (chars s1) (chars w1) in
  negb ((List.length b <? n)%nat || (List.length b_inv <? n)%nat).

(** [map(lambda c: b[c], l)]: a letter outside [b] raises [KeyError]. *)
Fixpoint translate (b : dict ascii ascii) (l : list ascii) : result (list ascii) :=
  match l with
  | [] => Ok []
  | c :: l' =>
      match dget ascii_dec b c with
      | None => Raise KeyError
      | Some d => ds <- translate b l' ;; Ok (d :: ds)
      end
  end.

(** [anagramic_words[n][ws]] on the [defaultdict]: an absent class reads
    as the empty set. *)
Definition class_of (t : table) (n : nat) (ws : string) : pyset :=
  match tget t n ws with
  | Some cls => cls
  | None => []
  end.

(** [squares_by_size.get(n, {})] *)
Definition squares_of_size (squares_by_size : dict nat pyset) (n : nat) : pyset :=
  match dget Nat.eq_dec squares_by_size n with
  | Some s => s
  | None => []
  end.

(** Lines 181-193, one round of the loop over [w2].  Line 186 rebinds
    [s1] to its integer value; a later round converts that integer
    again, to itself, so every round sees [int] of the string. *)
Definition try_partner (squares_by_size : dict nat pyset) (b : dict ascii ascii)
    (w1 s1 : string) (st : search_state) (w2 : string) : result search_state :=
  if String.eqb w2 w1 then Ok st
  else
    ds <- translate b (chars w2) ;;
    let s2 := join ds in
    match dget Nat.eq_dec squares_by_size (String.length s2) with
    | None => Raise KeyError
    | Some sqs =>
        if set_mem s2 sqs then
          s1i <- int_ s1 ;;
          s2i <- int_ s2 ;;
          let s := Z.max s1i s2i in
          if (s >? fst st)%Z then Ok (s, Some ((w1, s1i), (w2, s2i)))
          else Ok st
        else Ok st
    end.

(** Lines 171-193, one round of the loop over [s1]. *)
Definition try_square (anagramic_words : table) (squares_by_size : dict nat pyset)
    (w1 ws : string) (n : nat) (st : search_state) (s1 : string)
  : result search_state :=
  let b := dict_of_zip (chars w1) (chars s1) in
  let b_inv := dict_of_zip (chars s1) (chars w1) in
  if ((List.length b <? n)%nat || (List.length b_inv <? n)%nat)%bool then Ok st
  else for_each (class_of anagramic_words n ws)
                (try_partner squares_by_size b w1 s1) st.

(** Lines 166-193, one round of the loop over [w1]. *)
Definition try_word (anagramic_words : table) (squares_by_size : dict nat pyset)
    (st : search_state) (w1 : string) : result search_state :=
  let ws := class_key w1 in
  let n := String.length w1 in
  for_each (squares_of_size squares_by_size n)
           (try_square anagramic_words squares_by_size w1 ws n) st.

(** Lines 153-193 but for the call of line 157: the Pair Search on the
    two tables. *)
Definition pair_search (anagramic_words anagramic_squares : table)
  : result search_state :=
  let words := all_words anagramic_words in
  let squares_by_size := squares_by_size_of anagramic_squares in
  for_each words (try_word anagramic_words squares_by_size) (0%Z, None).

(** Lines 163-193 on any enumeration [words] of line 154 and any
    dictionary [squares_by_size] of line 160. *)
Definition search_loop (anagramic_words : table) (words : list string)
    (squares_by_size : dict nat pyset) : result search_state :=
  for_each words (try_word anagramic_words squares_by_size) (0%Z, None).

(** Lines 195-196: unpacking [None] is a [TypeError]. *)
Definition report (p_best : option pair)
  : result ((string * Z * Z) * (string * Z * Z)) :=
  match p_best with
  | None => Raise TypeError
  | Some ((w1, s1), (w2, s2)) => Ok ((w1, Z.sqrt s1, s1), (w2, Z.sqrt s2, s2))
  end.

(** [main] from line 153 on, given the table of line 151. *)
Definition main_of_table (anagramic_words : table)
  : result ((string * Z * Z) * (string * Z * Z)) :=
  d_max <- max_key anagramic_words ;;
  anagramic_squares <- get_anagramic_squares (PyInt (Z.of_nat d_max)) ;;
  st <- pair_search anagramic_words anagramic_squares ;;
  report (snd st).

(** [main] on the word list that line 52 produced. *)
Definition main_words (words : list string)
  : result ((string * Z * Z) * (string * Z * Z)) :=
  anagramic_words <- group_strings words ;;
  main_of_table anagramic_words.

Definition main (fs : file_system) (filename : pyval)
  : result ((string * Z * Z) * (string * Z * Z)) :=
  match filename with
  | PyStr _ =>
      anagramic_words <- get_anagramic_words fs filename ;;
      main_of_table anagramic_words
  | _ => Raise AssertionError
  end.

(** [main] with the two float expressions as parameters:
    [floor_pow10_half] for [floor(10**(d_max/2))] of line 105 and
    [int_sqrt] for [int(sqrt(s))] of line 196, each giving an integer or
    the exception raised. *)
Section Floats.
Variable floor_pow10_half : Z -> result Z.
Variable int_sqrt : Z -> result Z.

(** Lines 195-196; the tuple is built from left to right. *)
Definition report_with (p_best : option pair)
  : result ((string * Z * Z) * (string * Z * Z)) :=
  match p_best with
  | None => Raise TypeError
  | Some ((w1, s1), (w2, s2)) =>
      r1 <- int_sqrt s1 ;;
      r2 <- int_sqrt s2 ;;
      Ok ((w1, r1, s1), (w2, r2, s2))
  end.

Definition main_of_table_with (anagramic_words : table)
  : result ((string * Z * Z) * (string * Z * Z)) :=
  d_max <- max_key anagramic_words ;;
  anagramic_squares <-
    get_anagramic_squares_with floor_pow10_half (PyInt (Z.of_nat d_max)) ;;
  st <- pair_search anagramic_words anagramic_squares ;;
  report_with (snd st).

Definition main_words_with (words : list string)
  : result ((string * Z * Z) * (string * Z * Z)) :=
  anagramic_words <- group_strings words ;;
  main_of_table_with anagramic_words.

Definition main_with (fs : file_system) (filename : pyval)
  : result ((string * Z * Z) * (string * Z * Z)) :=
  match filename with
  | PyStr _ =>
      anagramic_words <- get_anagramic_words fs filename ;;
      main_of_table_with anagramic_words
  | _ => Raise AssertionError
  end.
End Floats.

(** The two float expressions at their mathematical values. *)
Definition exact_floor_pow10_half (d : Z) : result Z := Ok (root_bound d).
Definition exact_int_sqrt (s : Z) : result Z := Ok (Z.sqrt s).

(** * Properties *)

(** ** Loops *)

Lemma for_each_app {A S : Type} (body : S -> A -> result S) l1 l2 s :
  for_each (l1 ++ l2) body s = (s' <- for_each l1 body s ;; for_each l2 body s').
Proof.
  revert s; induction l1 as [|x l1 IH]; intros s; simpl; [reflexivity|].
  destruct (body s x); simpl; auto.
Qed.

(** A loop whose every round succeeds and carries the invariant from
    the prefix already seen to the prefix extended by one element. *)
Lemma for_each_total {A S : Type} (body : S -> A -> result S)
    (Inv : list A -> S -> Prop) (l : list A) (s0 : S) :
  Inv [] s0 ->
  (forall pre x post s, l = pre ++ x :: post -> Inv pre s ->
     exists s', body s x = Ok s' /\ Inv (pre ++ [x]) s') ->
  exists s', for_each l body s0 = Ok s' /\ Inv l s'.
Proof.
  intros H0 Hstep.
  assert (G : forall post pre s, l = pre ++ post -> Inv pre s ->
              exists s', for_each post body s = Ok s' /\ Inv l s').
  { induction post as [|x post IH]; intros pre s Hl Hs.
    - rewrite app_nil_r in Hl; subst; simpl; eauto.
    - simpl. destruct (Hstep pre x post s Hl Hs) as (s' & Hb & Hs').
      rewrite Hb. apply (IH (pre ++ [x])); auto.
      rewrite <- app_assoc; exact Hl. }
  apply (G l [] s0); auto.
Qed.

(** A property that every successful round preserves holds at the end
    of a successful loop. *)
Lemma for_each_preserves {A S : Type} (body : S -> A -> result S)
    (P : S -> Prop) (l : list A) :
  (forall x s s', In x l -> P s -> body s x = Ok s' -> P s') ->
  forall s s', P s -> for_each l body s = Ok s' -> P s'.
Proof.
  induction l as [|x l IH]; intros Hstep s s' Hs Hrun; simpl in Hrun.
  - inversion Hrun; subst; exact Hs.
  - destruct (body s x) as [s1|e] eqn:Hb; [|discriminate].
    apply (IH (fun y a b Hy => Hstep y a b (or_intror Hy)) s1 s'); auto.
    apply (Hstep x s s1); simpl; auto.
Qed.

(** ** Sets *)

Lemma set_mem_In x s : set_mem x s = true <-> In x s.
Proof.
  unfold set_mem. rewrite existsb_exists. split.
  - intros (y & Hy & E). apply String.eqb_eq in E. subst; auto.
  - intros H. exists x. split; auto. apply String.eqb_refl.
Qed.

Lemma set_mem_false x s : set_mem x s = false <-> ~ In x s.
Proof.
  rewrite <- set_mem_In. destruct (set_mem x s); split; congruence.
Qed.

Lemma set_add_In x y s : In y (set_add x s) <-> y = x \/ In y s.
Proof.
  unfold set_add. destruct (set_mem x s) eqn:E.
  - apply set_mem_In in E. split; [auto|]. intros [->|H]; auto.
  - rewrite in_app_iff. simpl. intuition.
Qed.

Lemma set_add_NoDup x s : NoDup s -> NoDup (set_add x s).
Proof.
  intros H. unfold set_add. destruct (set_mem x s) eqn:E; auto.
  apply set_mem_false in E.
  apply NoDup_app; auto.
  - constructor; [intros []|constructor].
  - intros y Hy [<-|[]]. auto.
Qed.

Lemma set_add_length x s :
  List.length (set_add x s) =
  if set_mem x s then List.length s else S (List.length s).
Proof.
  unfold set_add. destruct (set_mem x s); auto.
  rewrite length_app. simpl. lia.
Qed.

Lemma set_add_not_nil x s : set_add x s <> [].
Proof.
  unfold set_add. destruct (set_mem x s) eqn:E.
  - apply set_mem_In in E. destruct s; [destruct E|discriminate].
  - destruct s; discriminate.
Qed.

Lemma set_discard_In x y s : In y (set_discard x s) <-> y <> x /\ In y s.
Proof.
  induction s as [|z s IH]; simpl; [tauto|].
  destruct (String.eqb_spec x z) as [->|N]; simpl; rewrite IH.
  - split; [tauto|]. intros [H1 [H2|H2]]; [congruence|auto].
  - split; [|tauto]. intros [->|H]; auto; tauto.
Qed.

Lemma set_discard_NoDup x s : NoDup s -> NoDup (set_discard x s).
Proof.
  induction 1 as [|z s Hz Hs IH]; simpl; [constructor|].
  destruct (String.eqb x z); auto.
  constructor; auto. rewrite set_discard_In. tauto.
Qed.

(** ** Dictionaries *)

Section DictFacts.
Context {K V : Type}.
Variable K_dec : forall x y : K, {x = y} + {x <> y}.
Implicit Types (d : dict K V) (k : K) (v : V).

Lemma dget_In d k v : dget K_dec d k = Some v -> In (k, v) d.
Proof.
  induction d as [|[k' v'] d IH]; simpl; [discriminate|].
  destruct (K_dec k k') as [->|N]; intros H.
  - inversion H; auto.
  - auto.
Qed.

Lemma dget_None d k : dget K_dec d k = None <-> ~ In k (dkeys d).
Proof.
  induction d as [|[k' v'] d IH]; simpl; [tauto|].
  destruct (K_dec k k') as [->|N].
  - split; [discriminate|]. intros H; exfalso; auto.
  - rewrite IH. split; [intros H [E|E]; auto; congruence|tauto].
Qed.

Lemma In_dget d k v : NoDup (dkeys d) -> In (k, v) d -> dget K_dec d k = Some v.
Proof.
  induction d as [|[k' v'] d IH]; simpl; [tauto|].
  intros Hnd [E|Hin]; inversion Hnd; subst.
  - inversion E; subst. destruct (K_dec k k); congruence.
  - destruct (K_dec k k') as [->|N]; auto.
    exfalso. apply H1. apply (in_map fst) in Hin. exact Hin.
Qed.

Lemma dget_dset d k v k' :
  dget K_dec (dset K_dec d k v) k' = if K_dec k' k then Some v else dget K_dec d k'.
Proof.
  induction d as [|[k0 v0] d IH]; simpl.
  - destruct (K_dec k' k); auto.
  - destruct (K_dec k k0) as [->|N]; simpl.
    + destruct (K_dec k' k0); auto.
    + destruct (K_dec k' k0) as [->|N']; simpl.
      * destruct (K_dec k0 k); congruence.
      * exact IH.
Qed.

Lemma In_dset d k v k' v' :
  In (k', v') (dset K_dec d k v) -> (k' = k /\ v' = v) \/ In (k', v') d.
Proof.
  induction d as [|[k0 v0] d IH]; simpl.
  - intros [E|[]]. inversion E; auto.
  - destruct (K_dec k k0) as [->|N]; simpl.
    + intros [E|H]; [inversion E|]; auto.
    + intros [E|H]; auto. destruct (IH H); auto.
Qed.

Lemma In_dkeys_dset d k v k' :
  In k' (dkeys (dset K_dec d k v)) <-> k' = k \/ In k' (dkeys d).
Proof.
  induction d as [|[k0 v0] d IH]; simpl.
  - intuition.
  - destruct (K_dec k k0) as [->|N]; simpl.
    + intuition.
    + rewrite IH. intuition.
Qed.

Lemma NoDup_dset d k v : NoDup (dkeys d) -> NoDup (dkeys (dset K_dec d k v)).
Proof.
  induction d as [|[k0 v0] d IH]; simpl; intros H.
  - constructor; [intros []|constructor].
  - inversion H; subst. destruct (K_dec k k0) as [->|N]; simpl.
    + constructor; auto.
    + constructor; auto. rewrite In_dkeys_dset. intros [E|E]; auto.
Qed.

Lemma dset_not_nil d k v : dset K_dec d k v <> [].
Proof. destruct d as [|[k0 v0] d]; simpl; [|destruct (K_dec k k0)]; discriminate. Qed.

Lemma dpop_present d k v :
  dget K_dec d k = Some v -> exists d', dpop K_dec d k = Some d'.
Proof.
  induction d as [|[k0 v0] d IH]; simpl; [discriminate|].
  destruct (K_dec k k0); eauto.
  intros H. destruct (IH H) as (d' & ->). eauto.
Qed.

Lemma dget_dpop d k d' k' :
  NoDup (dkeys d) -> dpop K_dec d k = Some d' ->
  dget K_dec d' k' = if K_dec k' k then None else dget K_dec d k'.
Proof.
  revert d'; induction d as [|[k0 v0] d IH]; simpl; intros d' Hnd; [discriminate|].
  inversion Hnd; subst.
  destruct (K_dec k k0) as [->|N]; intros H.
  - inversion H; subst. destruct (K_dec k' k0) as [->|N']; auto.
    apply dget_None; auto.
  - destruct (dpop K_dec d k) as [d''|] eqn:E; [|discriminate].
    inversion H; subst; simpl.
    destruct (K_dec k' k0) as [->|N'].
    + destruct (K_dec k0 k); congruence.
    + apply IH; auto.
Qed.

Lemma In_dpop d k d' kv : dpop K_dec d k = Some d' -> In kv d' -> In kv d.
Proof.
  revert d'; induction d as [|[k0 v0] d IH]; simpl; intros d'; [discriminate|].
  destruct (K_dec k k0) as [->|N]; intros H.
  - inversion H; subst; auto.
  - destruct (dpop K_dec d k) as [d''|] eqn:E; [|discriminate].
    inversion H; subst; simpl. intros [E'|H']; eauto.
Qed.

Lemma NoDup_dpop d k d' :
  NoDup (dkeys d) -> dpop K_dec d k = Some d' -> NoDup (dkeys d').
Proof.
  revert d'; induction d as [|[k0 v0] d IH]; simpl; intros d' Hnd; [discriminate|].
  inversion Hnd; subst.
  destruct (K_dec k k0) as [->|N]; intros H.
  - inversion H; subst; auto.
  - destruct (dpop K_dec d k) as [d''|] eqn:E; [|discriminate].
    inversion H; subst; simpl. constructor; eauto.
    intros Hin. apply H1. apply in_map_iff in Hin.
    destruct Hin as (kv & Ek & Hin). apply in_map_iff. exists kv.
    split; auto. eapply In_dpop; eauto.
Qed.

Lemma dpop_length d k d' :
  dpop K_dec d k = Some d' -> List.length d = S (List.length d').
Proof.
  revert d'; induction d as [|[k0 v0] d IH]; simpl; intros d'; [discriminate|].
  destruct (K_dec k k0) as [->|N]; intros H.
  - inversion H; subst; auto.
  - destruct (dpop K_dec d k) as [d''|] eqn:E; [|discriminate].
    inversion H; subst; simpl. f_equal. auto.
Qed.
End DictFacts.

(** ** Strings, sorting and decimal notation *)

Lemma chars_join l : chars (join l) = l.
Proof. apply list_ascii_of_string_of_list_ascii. Qed.

Lemma join_chars s : join (chars s) = s.
Proof. apply string_of_list_ascii_of_string. Qed.

Lemma length_chars s : List.length (chars s) = String.length s.
Proof. induction s; simpl; auto. Qed.

Lemma length_join l : String.length (join l) = List.length l.
Proof. rewrite <- length_chars, chars_join. reflexivity. Qed.

Lemma chars_inj s s' : chars s = chars s' -> s = s'.
Proof. intros H. rewrite <- (join_chars s), <- (join_chars s'), H. reflexivity. Qed.

Lemma insert_sorted_perm a l : Permutation (insert_sorted a l) (a :: l).
Proof.
  induction l as [|b l IH]; simpl; auto.
  destruct (ascii_leb a b); auto.
  rewrite IH. apply perm_swap.
Qed.

Lemma sorted_perm l : Permutation (sorted l) l.
Proof.
  induction l as [|a l IH]; simpl; auto.
  rewrite insert_sorted_perm. auto.
Qed.

Lemma class_key_perm w : Permutation (chars (class_key w)) (chars w).
Proof. unfold class_key. rewrite chars_join. apply sorted_perm. Qed.

Lemma class_key_length w : String.length (class_key w) = String.length w.
Proof.
  rewrite <- !length_chars. apply Permutation_length, class_key_perm.
Qed.

Lemma same_key_perm w w' :
  class_key w = class_key w' -> Permutation (chars w) (chars w').
Proof.
  intros H. rewrite <- (class_key_perm w), H. apply class_key_perm.
Qed.

Lemma same_key_length w w' :
  class_key w = class_key w' -> String.length w = String.length w'.
Proof.
  intros H. rewrite <- (class_key_length w), H. apply class_key_length.
Qed.

Lemma int_str z : int_ (str_ z) = Ok z.
Proof.
  unfold int_, str_. rewrite NilZero.isi.
  - rewrite DecimalZ.of_to. reflexivity.
  - destruct z; simpl; try discriminate.
    intros H. inversion H. eapply DecimalPos.Unsigned.to_uint_nonnil; eauto.
  - destruct z; simpl; try discriminate.
    intros H. inversion H. eapply DecimalPos.Unsigned.to_uint_nonnil; eauto.
Qed.

Lemma str_inj z z' : str_ z = str_ z' -> z = z'.
Proof.
  intros H. assert (E : int_ (str_ z) = int_ (str_ z')) by (rewrite H; auto).
  rewrite !int_str in E. inversion E; auto.
Qed.

(** ** The grouping loop *)

(** Distinct keys at both levels, and no empty inner table. *)
Definition table_shape (t : table) : Prop :=
  NoDup (dkeys t) /\
  forall n inner, In (n, inner) t -> NoDup (dkeys inner) /\ inner <> [].

(** Line 62 (and 109), as a function on the table. *)
Definition insert_word (t : table) (n : nat) (k w : string) : table :=
  default_modify Nat.eq_dec t n []
    (fun inner => default_modify string_dec inner k [] (set_add w)).

Lemma tget_insert_word t n k w n' k' :
  tget (insert_word t n k w) n' k' =
  if Nat.eq_dec n' n then
    if string_dec k' k then Some (set_add w (class_of t n k)) else tget t n' k'
  else tget t n' k'.
Proof.
  unfold insert_word, class_of, tget, default_modify.
  destruct (dget Nat.eq_dec t n) as [inner|] eqn:E;
    rewrite dget_dset; destruct (Nat.eq_dec n' n) as [->|N]; auto.
  - rewrite E. destruct (dget string_dec inner k) eqn:E';
      rewrite dget_dset; destruct (string_dec k' k); auto.
  - rewrite E. simpl. destruct (string_dec k' k); auto.
Qed.

Lemma shape_insert_word t n k w : table_shape t -> table_shape (insert_word t n k w).
Proof.
  intros [Hk Hin]. unfold insert_word, default_modify. split.
  - destruct (dget Nat.eq_dec t n); apply NoDup_dset; auto.
  - intros n' inner' H.
    destruct (dget Nat.eq_dec t n) as [inner|] eqn:E.
    + apply In_dset in H. destruct H as [[-> ->]|H]; [|exact (Hin _ _ H)].
      apply dget_In in E. destruct (Hin _ _ E) as [Hnd _].
      destruct (dget string_dec inner k); split;
        try apply dset_not_nil; apply NoDup_dset; auto.
    + apply In_dset in H. destruct H as [[-> ->]|H]; [|exact (Hin _ _ H)].
      simpl. split; [|discriminate]. constructor; [intros []|constructor].
Qed.

(** What the loop has built after the words [l]: every class holds
    exactly the words of [l] with its key, and the singleton set holds
    exactly the keys of the classes of size one. *)
Definition grouped (l : list string) (st : group_state) : Prop :=
  table_shape (fst st) /\
  (forall n k cls, tget (fst st) n k = Some cls ->
     n = String.length k /\ NoDup cls /\ cls <> [] /\
     forall w, In w cls <-> (In w l /\ class_key w = k)) /\
  (forall w, In w l ->
     exists cls, tget (fst st) (String.length w) (class_key w) = Some cls) /\
  NoDup (snd st) /\
  (forall k, In k (snd st) <->
     exists cls, tget (fst st) (String.length k) k = Some cls /\ List.length cls = 1%nat).

Lemma group_step_fst t sing w :
  fst (group_step (t, sing) w) =
  insert_word t (String.length (class_key w)) (class_key w) w.
Proof.
  unfold group_step. fold (insert_word t (String.length (class_key w)) (class_key w) w).
  repeat match goal with |- context [if ?c then _ else _] => destruct c end; reflexivity.
Qed.

Lemma group_step_snd t sing w :
  let k := class_key w in
  let t' := insert_word t (String.length k) k w in
  let size := match tget t' (String.length k) k with
              | Some cls => List.length cls | None => 0%nat end in
  snd (group_step (t, sing) w) =
  if (size =? 2)%nat then set_discard k sing
  else if (size =? 1)%nat then set_add k sing else sing.
Proof.
  unfold group_step. fold (insert_word t (String.length (class_key w)) (class_key w) w).
  simpl.
  repeat match goal with |- context [if ?c then _ else _] => destruct c end; reflexivity.
Qed.

Lemma grouped_nil : grouped [] ([], []).
Proof.
  unfold grouped, table_shape; simpl. repeat apply conj.
  - constructor.
  - intros n inner [].
  - intros n k cls H; discriminate.
  - intros w [].
  - constructor.
  - intros k. split; [intros []|]. intros (cls & H & _). discriminate.
Qed.

Lemma grouped_step l st w : grouped l st -> grouped (l ++ [w]) (group_step st w).
Proof.
  destruct st as [t sing]. intros (Hshape & Hcls & Hall & Hnd & Hsing).
  simpl in Hshape, Hcls, Hall, Hnd, Hsing.
  set (k := class_key w). set (n := String.length k).
  assert (Hn : String.length w = n) by (symmetry; apply class_key_length).
  assert (Ht : forall n' k',
             tget (fst (group_step (t, sing) w)) n' k' =
             if Nat.eq_dec n' n then
               if string_dec k' k then Some (set_add w (class_of t n k))
               else tget t n' k'
             else tget t n' k').
  { intros. rewrite group_step_fst. apply tget_insert_word. }
  assert (Hold : NoDup (class_of t n k) /\
                 forall w0, In w0 (class_of t n k) <-> In w0 l /\ class_key w0 = k).
  { unfold class_of. destruct (tget t n k) as [cls|] eqn:E.
    - destruct (Hcls _ _ _ E) as (_ & H1 & _ & H2). auto.
    - split; [constructor|]. intros w0; split; [intros []|]. intros [Hin Hk0].
      destruct (Hall _ Hin) as (cls & Hc). rewrite Hk0 in Hc.
      assert (L : String.length w0 = n).
      { unfold n. rewrite <- Hk0. symmetry; apply class_key_length. }
      rewrite L in Hc. congruence. }
  destruct Hold as [Hold1 Hold2].
  unfold grouped. split; [|split; [|split; [|split]]].
  - rewrite group_step_fst. apply shape_insert_word; auto.
  - intros n' k' cls. rewrite Ht.
    destruct (Nat.eq_dec n' n) as [->|Nn]; [destruct (string_dec k' k) as [->|Nk]|].
    + intros H; inversion H; subst cls; clear H.
      split; [reflexivity|]. split; [apply set_add_NoDup; auto|].
      split; [apply set_add_not_nil|].
      intros w0. rewrite set_add_In, in_app_iff, Hold2. simpl. split.
      * intros [->|[? ?]]; auto.
      * intros [[?|[->|[]]] ?]; auto.
    + intros H. destruct (Hcls _ _ _ H) as (H1 & H2 & H3 & H4).
      repeat split; auto; try (apply H4; assumption).
      * apply in_or_app. left. apply H4; assumption.
      * intros [Hi Hk']. apply H4. apply in_app_iff in Hi.
        destruct Hi as [Hi|[<-|[]]]; auto. exfalso; apply Nk; auto.
    + intros H. destruct (Hcls _ _ _ H) as (H1 & H2 & H3 & H4).
      repeat split; auto; try (apply H4; assumption).
      * apply in_or_app. left. apply H4; assumption.
      * intros [Hi Hk']. apply H4. apply in_app_iff in Hi.
        destruct Hi as [Hi|[<-|[]]]; auto. exfalso; apply Nn.
        rewrite H1, <- Hk'. reflexivity.
  - intros w0 Hin. rewrite Ht.
    destruct (Nat.eq_dec (String.length w0) n) as [En|Nn];
      [destruct (string_dec (class_key w0) k) as [Ek|Nk]|]; eauto;
      apply in_app_iff in Hin; destruct Hin as [Hin|[<-|[]]]; auto;
      exfalso; auto.
  - rewrite group_step_snd. cbv zeta.
    repeat match goal with |- context [if ?c then _ else _] => destruct c end;
      auto using set_discard_NoDup, set_add_NoDup.
  - intros k0. rewrite group_step_snd. cbv zeta.
    rewrite <- (group_step_fst t sing w). fold k. fold n.
    rewrite !Ht.
    destruct (Nat.eq_dec n n) as [_|N]; [|congruence].
    destruct (string_dec k k) as [_|N]; [|congruence].
    set (cls' := set_add w (class_of t n k)).
    destruct (string_dec k0 k) as [->|Nk].
    + fold n. destruct (Nat.eq_dec n n) as [_|N]; [|congruence].
      assert (R : (exists cls, Some cls' = Some cls /\ List.length cls = 1%nat) <->
                  List.length cls' = 1%nat).
      { split; [intros (c & E & L); inversion E; subst; auto|eauto]. }
      rewrite R.
      destruct (Nat.eqb_spec (List.length cls') 2) as [E2|N2];
        [|destruct (Nat.eqb_spec (List.length cls') 1) as [E1|N1]].
      * rewrite set_discard_In. split; [tauto|lia].
      * rewrite set_add_In. tauto.
      * rewrite Hsing. fold n. split; [|tauto].
        intros (cls & Hc & L). exfalso.
        unfold cls', class_of in N1, N2. rewrite Hc in N1, N2.
        rewrite set_add_length in N1, N2. destruct (set_mem w cls); lia.
    + assert (R : (if Nat.eq_dec (String.length k0) n then tget t (String.length k0) k0
                   else tget t (String.length k0) k0) = tget t (String.length k0) k0).
      { destruct (Nat.eq_dec (String.length k0) n); reflexivity. }
      rewrite R, <- Hsing.
      repeat match goal with |- context [if ?c then _ else _] => destruct c end;
        rewrite ?set_discard_In, ?set_add_In; tauto.
Qed.

Lemma grouped_fold l : grouped l (fold_left group_step l ([], [])).
Proof.
  induction l as [|w l IH] using rev_ind.
  - apply grouped_nil.
  - rewrite fold_left_app. simpl. apply grouped_step, IH.
Qed.

(** ** The purge of the singleton classes *)

Lemma purge_step_spec t x cls :
  table_shape t ->
  (forall n k c, tget t n k = Some c -> n = String.length k) ->
  tget t (String.length x) x = Some cls ->
  exists t', purge_step t x = Ok t' /\ table_shape t' /\
    forall n k, tget t' n k = if string_dec k x then None else tget t n k.
Proof.
  intros [Hnd Hin] Hkey Hx. unfold purge_step.
  unfold tget in Hx.
  destruct (dget Nat.eq_dec t (String.length x)) as [inner|] eqn:E; [|discriminate].
  destruct (Hin _ _ (dget_In _ _ _ _ E)) as [Hndi _].
  destruct (dpop_present _ _ _ _ Hx) as (inner' & Hpop). rewrite Hpop.
  assert (Hget' := fun k => dget_dpop string_dec inner x inner' k Hndi Hpop).
  assert (Hother : forall n k, n <> String.length x -> k = x -> tget t n k = None).
  { intros n k Hn ->. destruct (tget t n x) eqn:Et; auto.
    apply Hkey in Et. congruence. }
  destruct (Nat.eqb_spec (List.length inner') 0) as [L|L].
  - destruct inner'; [|discriminate]. clear L.
    destruct (dpop_present _ _ _ _ E) as (t' & Hpt). rewrite Hpt.
    exists t'. split; [reflexivity|]. split.
    + split; [eapply NoDup_dpop; eauto|].
      intros n i Hi. apply (Hin n). eapply In_dpop; eauto.
    + intros n k. unfold tget at 1.
      rewrite (dget_dpop Nat.eq_dec t _ t' n Hnd Hpt).
      destruct (Nat.eq_dec n (String.length x)) as [->|Nn].
      * destruct (string_dec k x) as [->|Nk]; auto.
        unfold tget. rewrite E. specialize (Hget' k). simpl in Hget'.
        destruct (string_dec k x); congruence.
      * destruct (string_dec k x) as [->|Nk]; auto.
        fold (tget t n x). apply Hother; auto.
  - eexists. split; [reflexivity|]. split.
    + split; [apply NoDup_dset; auto|].
      intros n i Hi. apply In_dset in Hi.
      destruct Hi as [[-> ->]|Hi]; [|exact (Hin _ _ Hi)].
      split; [eapply NoDup_dpop; eauto|]. intros ->. apply L. reflexivity.
    + intros n k. unfold tget at 1. rewrite dget_dset.
      destruct (Nat.eq_dec n (String.length x)) as [->|Nn].
      * rewrite Hget'. unfold tget. rewrite E. reflexivity.
      * destruct (string_dec k x) as [->|Nk]; auto.
        fold (tget t n x). apply Hother; auto.
Qed.

Lemma purge_spec t0 sing :
  table_shape t0 ->
  (forall n k c, tget t0 n k = Some c -> n = String.length k) ->
  NoDup sing ->
  (forall k, In k sing -> exists cls, tget t0 (String.length k) k = Some cls) ->
  exists t, for_each sing purge_step t0 = Ok t /\ table_shape t /\
    forall n k, tget t n k = if set_mem k sing then None else tget t0 n k.
Proof.
  intros Hshape Hkey Hnd Hsing.
  apply (for_each_total purge_step
           (fun pre t => table_shape t /\
              forall n k, tget t n k = if set_mem k pre then None else tget t0 n k)).
  - split; auto.
  - intros pre x post t Hl [Hs Ht].
    assert (Hx : ~ In x pre).
    { rewrite Hl in Hnd. apply NoDup_remove_2 in Hnd.
      intros H. apply Hnd. apply in_or_app; auto. }
    destruct (Hsing x) as (cls & Hc).
    { rewrite Hl. apply in_or_app. right. left. reflexivity. }
    assert (Hc' : tget t (String.length x) x = Some cls).
    { rewrite Ht. apply set_mem_false in Hx. rewrite Hx. exact Hc. }
    destruct (purge_step_spec t x cls Hs) as (t' & Hp & Hs' & Ht'); auto.
    { intros n k c. rewrite Ht. destruct (set_mem k pre); [discriminate|]. apply Hkey. }
    exists t'. split; auto. split; auto.
    intros n k. rewrite Ht', Ht.
    destruct (string_dec k x) as [->|Nk].
    + assert (M : set_mem x (pre ++ [x]) = true).
      { apply set_mem_In. apply in_or_app. right. left. reflexivity. }
      rewrite M. reflexivity.
    + assert (M : set_mem k (pre ++ [x]) = set_mem k pre).
      { destruct (set_mem k pre) eqn:Em.
        - apply set_mem_In. apply in_or_app. left. apply set_mem_In. exact Em.
        - apply set_mem_false. apply set_mem_false in Em. rewrite in_app_iff.
          simpl. intros [H|[H|[]]]; auto. }
      rewrite M. reflexivity.
Qed.

(** ** What the groupers return *)

(** [t] is the table of the anagram classes of [l] that have at least
    two members. *)
Definition anagram_table (l : list string) (t : table) : Prop :=
  table_shape t /\
  (forall n k cls, tget t n k = Some cls ->
     n = String.length k /\ NoDup cls /\ (2 <= List.length cls)%nat /\
     forall w, In w cls <-> (In w l /\ class_key w = k)) /\
  (forall w w', In w l -> In w' l -> w <> w' -> class_key w = class_key w' ->
     exists cls, tget t (String.length w) (class_key w) = Some cls).

Lemma two_distinct_length {A : Type} (x y : A) (l : list A) :
  In x l -> In y l -> x <> y -> (2 <= List.length l)%nat.
Proof.
  destruct l as [|a [|b l]]; simpl; try lia; try tauto.
  intros [<-|[]] [<-|[]] N. congruence.
Qed.

Lemma group_strings_spec l : exists t, group_strings l = Ok t /\ anagram_table l t.
Proof.
  unfold group_strings.
  pose proof (grouped_fold l) as G.
  destruct (fold_left group_step l ([], [])) as [t0 sing].
  destruct G as (Hshape & Hcls & Hall & Hnd & Hsing). simpl in *.
  destruct (purge_spec t0 sing) as (t & Hrun & Hs & Ht); auto.
  { intros n k c H. apply (Hcls _ _ _ H). }
  { intros k H. apply Hsing in H. destruct H as (cls & H & _). eauto. }
  exists t. split; auto. split; auto. split.
  - intros n k cls. rewrite Ht. destruct (set_mem k sing) eqn:Em; [discriminate|].
    intros H. destruct (Hcls _ _ _ H) as (H1 & H2 & H3 & H4).
    repeat split; auto; try (apply H4; assumption).
    apply set_mem_false in Em.
    assert (List.length cls <> 1%nat).
    { intros L. apply Em. apply Hsing. exists cls. subst n. auto. }
    destruct cls as [|a [|b cls]]; simpl in *; try lia; congruence.
  - intros w w' Hw Hw' N E.
    destruct (Hall _ Hw) as (cls & Hc). exists cls. rewrite Ht.
    destruct (set_mem (class_key w) sing) eqn:Em; auto.
    exfalso. apply set_mem_In, Hsing in Em. rewrite class_key_length in Em.
    destruct Em as (c & Hc' & L). rewrite Hc in Hc'. inversion Hc'; subst c.
    destruct (Hcls _ _ _ Hc) as (_ & _ & _ & H4).
    assert (2 <= List.length cls)%nat.
    { apply (two_distinct_length w w'); auto; apply H4; auto. }
    lia.
Qed.

(** ** Letter-to-digit mappings *)

Section Zip.
Context {K V : Type}.
Variable K_dec : forall x y : K, {x = y} + {x <> y}.
Implicit Types (d acc : dict K V) (l : list (K * V)).

Definition dict_of_pairs acc l : dict K V :=
  fold_left (fun d kv => dset K_dec d (fst kv) (snd kv)) l acc.

Lemma dset_length d k v :
  List.length (dset K_dec d k v) =
  match dget K_dec d k with
  | Some _ => List.length d
  | None => S (List.length d)
  end.
Proof.
  induction d as [|[k0 v0] d IH]; simpl; auto.
  destruct (K_dec k k0); simpl; auto.
  rewrite IH. destruct (dget K_dec d k); auto.
Qed.

Lemma dset_fresh d k v : dget K_dec d k = None -> dset K_dec d k v = d ++ [(k, v)].
Proof.
  induction d as [|[k0 v0] d IH]; simpl; auto.
  destruct (K_dec k k0); [discriminate|]. intros H. rewrite IH; auto.
Qed.

Lemma dget_app_None d k kv :
  dget K_dec (d ++ [kv]) k = None -> dget K_dec d k = None /\ k <> fst kv.
Proof.
  induction d as [|[k0 v0] d IH]; simpl.
  - destruct kv as [k1 v1]; simpl. destruct (K_dec k k1); [discriminate|auto].
  - destruct (K_dec k k0); [discriminate|auto].
Qed.

Lemma dict_of_pairs_length_le acc l :
  (List.length (dict_of_pairs acc l) <= List.length acc + List.length l)%nat.
Proof.
  revert acc; induction l as [|[k v] l IH]; intros acc; simpl; [lia|].
  specialize (IH (dset K_dec acc k v)). rewrite dset_length in IH.
  destruct (dget K_dec acc k); lia.
Qed.

(** A dictionary built from pairs has as many entries as there were
    pairs only when no key came twice, and then it is the list of the
    pairs itself. *)
Lemma dict_of_pairs_full acc l :
  List.length (dict_of_pairs acc l) = (List.length acc + List.length l)%nat ->
  dict_of_pairs acc l = acc ++ l /\
  (forall k, In k (map fst l) -> dget K_dec acc k = None) /\
  NoDup (map fst l).
Proof.
  unfold dict_of_pairs.
  revert acc; induction l as [|[k v] l IH]; intros acc; simpl; intros H.
  - rewrite app_nil_r. repeat split; [tauto|constructor].
  - pose proof (dict_of_pairs_length_le (dset K_dec acc k v) l) as Hle.
    unfold dict_of_pairs in Hle. rewrite dset_length in Hle.
    destruct (dget K_dec acc k) eqn:E; [lia|].
    rewrite (dset_fresh _ _ _ E) in *.
    destruct (IH (acc ++ [(k, v)])) as (H1 & H2 & H3).
    { rewrite length_app. simpl. lia. }
    rewrite H1, <- app_assoc. simpl.
    split; [reflexivity|]. split.
    + intros k' [<-|Hk']; auto. apply H2 in Hk'. apply dget_app_None in Hk'. tauto.
    + constructor; auto. intros Hk. apply H2 in Hk.
      apply dget_app_None in Hk. simpl in Hk. tauto.
Qed.

Lemma dget_combine_In (ks : list K) (vs : list V) k :
  In k ks -> (List.length ks <= List.length vs)%nat ->
  exists v, dget K_dec (combine ks vs) k = Some v.
Proof.
  revert vs; induction ks as [|k0 ks IH]; intros vs; [intros []|].
  destruct vs as [|v0 vs]; simpl; [lia|].
  intros Hin Hlen. destruct (K_dec k k0); eauto.
  apply IH; [destruct Hin; congruence|lia].
Qed.
End Zip.

Lemma map_fst_combine {A B : Type} (l : list A) (l' : list B) :
  (List.length l <= List.length l')%nat -> map fst (combine l l') = l.
Proof.
  revert l'; induction l as [|a l IH]; intros [|b l']; simpl; auto; try lia.
  intros H. f_equal. apply IH. lia.
Qed.

Lemma map_fst_combine_firstn {A B : Type} (l : list A) (l' : list B) :
  map fst (combine l l') = firstn (List.length l') l.
Proof.
  revert l'; induction l as [|a l IH]; intros [|b l']; simpl; auto.
  f_equal. apply IH.
Qed.

Lemma dict_of_zip_length_le ks vs :
  (List.length (dict_of_zip ks vs) <= Nat.min (List.length ks) (List.length vs))%nat.
Proof.
  unfold dict_of_zip.
  pose proof (dict_of_pairs_length_le ascii_dec [] (combine ks vs)) as H.
  unfold dict_of_pairs in H. rewrite length_combine in H. simpl in H. exact H.
Qed.

(** What passing the guard of line 176 means for the two dictionaries. *)
Lemma is_bijection_spec w1 s1 :
  is_bijection w1 s1 = true ->
  (String.length w1 <= String.length s1)%nat /\
  dict_of_zip (chars w1) (chars s1) = combine (chars w1) (chars s1) /\
  dict_of_zip (chars s1) (chars w1) = combine (chars s1) (chars w1) /\
  List.length (dict_of_zip (chars w1) (chars s1)) = String.length w1 /\
  List.length (dict_of_zip (chars s1) (chars w1)) = String.length w1 /\
  NoDup (chars w1) /\
  NoDup (firstn (String.length w1) (chars s1)).
Proof.
  unfold is_bijection. intros H.
  apply negb_true_iff, orb_false_iff in H. destruct H as [H1 H2].
  apply Nat.ltb_ge in H1, H2.
  pose proof (dict_of_zip_length_le (chars w1) (chars s1)) as L1.
  pose proof (dict_of_zip_length_le (chars s1) (chars w1)) as L2.
  rewrite !length_chars in L1, L2.
  assert (Hlen : (String.length w1 <= String.length s1)%nat) by lia.
  destruct (dict_of_pairs_full ascii_dec [] (combine (chars w1) (chars s1)))
    as (E1 & _ & N1).
  { unfold dict_of_pairs. fold (dict_of_zip (chars w1) (chars s1)).
    rewrite length_combine, !length_chars. simpl. lia. }
  destruct (dict_of_pairs_full ascii_dec [] (combine (chars s1) (chars w1)))
    as (E2 & _ & N2).
  { unfold dict_of_pairs. fold (dict_of_zip (chars s1) (chars w1)).
    rewrite length_combine, !length_chars. simpl. lia. }
  unfold dict_of_pairs in E1, E2. simpl in E1, E2.
  fold (dict_of_zip (chars w1) (chars s1)) in E1.
  fold (dict_of_zip (chars s1) (chars w1)) in E2.
  rewrite map_fst_combine in N1 by (rewrite !length_chars; lia).
  repeat split; auto; try lia.
  rewrite map_fst_combine_firstn, length_chars in N2. exact N2.
Qed.

(** ** Reading the tables *)

(** [s] is a member of some class of length [n]. *)
Definition in_table (t : table) (n : nat) (s : string) : Prop :=
  exists k cls, tget t n k = Some cls /\ In s cls.

(** Every member of a class has the length and the key it is filed
    under. *)
Definition keyed_table (t : table) : Prop :=
  table_shape t /\
  forall n k cls w, tget t n k = Some cls -> In w cls ->
    n = String.length w /\ k = class_key w.

(** A keyed table whose members are decimal forms of positive integers. *)
Definition square_table (t : table) : Prop :=
  keyed_table t /\
  forall n s, in_table t n s -> exists z, (0 < z)%Z /\ s = str_ z.

Lemma tget_In t n k cls :
  table_shape t ->
  (tget t n k = Some cls <-> exists inner, In (n, inner) t /\ In (k, cls) inner).
Proof.
  intros [Hnd Hin]. unfold tget. split.
  - destruct (dget Nat.eq_dec t n) as [inner|] eqn:E; [|discriminate].
    intros H. exists inner. split; eapply dget_In; eauto.
  - intros (inner & H1 & H2). rewrite (In_dget _ _ _ _ Hnd H1).
    apply In_dget; auto. apply (Hin _ _ H1).
Qed.

Lemma in_flat_values {V : Type} (d : dict string (list V)) (x : V) :
  In x (flat_map (fun v2 : list V => v2) (dvalues d)) <->
  exists k cls, In (k, cls) d /\ In x cls.
Proof.
  rewrite in_flat_map. unfold dvalues. split.
  - intros (cls & H & Hx). apply in_map_iff in H. destruct H as ([k c] & E & H).
    simpl in E; subst c. eauto.
  - intros (k & cls & H & Hx). exists cls. split; auto.
    apply in_map_iff. exists (k, cls). auto.
Qed.

Lemma all_words_In t w :
  table_shape t -> (In w (all_words t) <-> exists n, in_table t n w).
Proof.
  intros Hs. unfold all_words, in_table. rewrite in_flat_map. split.
  - intros (inner & H & Hw). unfold dvalues in H. apply in_map_iff in H.
    destruct H as ([n i] & E & H). simpl in E; subst i.
    apply in_flat_values in Hw. destruct Hw as (k & cls & Hk & Hw).
    exists n, k, cls. split; auto. apply tget_In; eauto.
  - intros (n & k & cls & H & Hw). apply tget_In in H; auto.
    destruct H as (inner & H1 & H2). exists inner. split.
    + unfold dvalues. apply in_map_iff. exists (n, inner). auto.
    + apply in_flat_values. eauto.
Qed.

Lemma fold_set_add_In (l : list string) acc x :
  In x (fold_left (fun a v3 => set_add v3 a) l acc) <-> In x acc \/ In x l.
Proof.
  revert acc; induction l as [|y l IH]; intros acc; simpl; [tauto|].
  rewrite IH, set_add_In. intuition.
Qed.

Lemma dget_map_values {A B : Type} (f : nat * A -> B) (d : dict nat A) n :
  dget Nat.eq_dec (map (fun kv => (fst kv, f kv)) d) n =
  match dget Nat.eq_dec d n with
  | Some v => Some (f (n, v))
  | None => None
  end.
Proof.
  induction d as [|[k v] d IH]; simpl; auto.
  destruct (Nat.eq_dec n k) as [->|N]; auto.
Qed.

Lemma squares_of_size_In t n s :
  table_shape t ->
  (In s (squares_of_size (squares_by_size_of t) n) <-> in_table t n s).
Proof.
  intros Hs. unfold squares_of_size, squares_by_size_of, in_table.
  rewrite (dget_map_values
             (fun kv : nat * inner_table => fold_left (fun acc v3 => set_add v3 acc)
                          (flat_map (fun v2 : pyset => v2) (dvalues (snd kv))) [])).
  unfold tget. destruct (dget Nat.eq_dec t n) as [inner|] eqn:E; simpl.
  - rewrite fold_set_add_In, in_flat_values. simpl.
    destruct Hs as [_ Hin]. apply dget_In in E. destruct (Hin _ _ E) as [Hnd _].
    split.
    + intros [[]|(k & cls & H & Hx)]. exists k, cls. split; auto.
      apply In_dget; auto.
    + intros (k & cls & H & Hx). right. exists k, cls. split; auto.
      eapply dget_In; eauto.
  - split; [intros []|]. intros (k & cls & H & _). discriminate.
Qed.


(** The substitution a dictionary stands for, as a total function. *)
Definition subst (b : dict ascii ascii) (c : ascii) : ascii :=
  match dget ascii_dec b c with
  | Some d => d
  | None => c
  end.

Lemma translate_ok b l :
  (forall c, In c l -> dget ascii_dec b c <> None) ->
  translate b l = Ok (map (subst b) l).
Proof.
  induction l as [|c l IH]; simpl; intros H; auto.
  unfold subst at 1.
  destruct (dget ascii_dec b c) eqn:E; [|exfalso; apply (H c); auto].
  rewrite IH; auto.
Qed.

Lemma translate_inv b l ds :
  translate b l = Ok ds ->
  ds = map (subst b) l /\ forall c, In c l -> dget ascii_dec b c <> None.
Proof.
  revert ds; induction l as [|c l IH]; simpl; intros ds H.
  - inversion H. split; [reflexivity|intros c []].
  - destruct (dget ascii_dec b c) eqn:E; [|discriminate].
    destruct (translate b l) as [ds'|] eqn:T; [|discriminate].
    simpl in H. inversion H; subst. destruct (IH _ eq_refl) as [-> Hall].
    split.
    + unfold subst at 2. rewrite E. reflexivity.
    + intros c' [<-|Hc]; [congruence|auto].
Qed.

Lemma subst_combine_self ks vs :
  NoDup ks -> List.length ks = List.length vs ->
  map (subst (combine ks vs)) ks = vs.
Proof.
  revert vs; induction ks as [|k ks IH]; intros [|v vs] Hnd Hlen;
    simpl in *; try discriminate; auto.
  inversion Hnd; subst. unfold subst at 1. simpl.
  destruct (ascii_dec k k) as [_|N]; [|congruence]. f_equal.
  rewrite <- (IH vs) at 2; auto.
  apply map_ext_in. intros c Hc. unfold subst. simpl.
  destruct (ascii_dec c k) as [->|N]; [contradiction|reflexivity].
Qed.

(** ** The search as a maximum over candidates *)

(** A candidate of the search: [(w1, s1, w2, s2)]. *)
Definition cand := (string * string * string * string)%type.

Definition ival (s : string) : Z :=
  match int_ s with
  | Ok z => z
  | Raise _ => 0%Z
  end.

Definition cand_value (c : cand) : Z :=
  let '(w1, s1, w2, s2) := c in Z.max (ival s1) (ival s2).

Definition cand_pair (c : cand) : pair :=
  let '(w1, s1, w2, s2) := c in ((w1, ival s1), (w2, ival s2)).

(** The quadruples that reach line 186: membership in the tables and
    the two tests, nothing about the order of the iteration. *)
Definition candidate (tw ts : table) (c : cand) : Prop :=
  let '(w1, s1, w2, s2) := c in
  In w1 (class_of tw (String.length w1) (class_key w1)) /\
  In w2 (class_of tw (String.length w1) (class_key w1)) /\
  w2 <> w1 /\
  in_table ts (String.length w1) s1 /\
  is_bijection w1 s1 = true /\
  translate (dict_of_zip (chars w1) (chars s1)) (chars w2) = Ok (chars s2) /\
  in_table ts (String.length w1) s2.

(** The state holds a candidate of [P] of the largest value, or
    nothing when [P] is empty. *)
Definition best (P : cand -> Prop) (st : search_state) : Prop :=
  match snd st with
  | None => fst st = 0%Z /\ forall c, ~ P c
  | Some p =>
      exists c, P c /\ p = cand_pair c /\ fst st = cand_value c /\
                forall c', P c' -> (cand_value c' <= cand_value c)%Z
  end.

Lemma best_ext (P Q : cand -> Prop) st :
  (forall c, P c <-> Q c) -> best P st -> best Q st.
Proof.
  intros H. unfold best. destruct (snd st).
  - intros (c & Hc & Hp & Hv & Hmax). exists c. repeat split; auto.
    + apply H; auto.
    + intros c' Hc'. apply Hmax, H, Hc'.
  - intros [H0 Hn]. split; auto. intros c Hc. apply (Hn c), H, Hc.
Qed.

(** Lines 189-191. *)
Lemma best_add (P : cand -> Prop) st c0 :
  best P st -> (0 < cand_value c0)%Z ->
  best (fun c => P c \/ c = c0)
       (if (cand_value c0 >? fst st)%Z then (cand_value c0, Some (cand_pair c0))
        else st).
Proof.
  intros Hb Hpos. unfold best in *.
  destruct (Z.gtb_spec (cand_value c0) (fst st)) as [G|G]; simpl.
  - exists c0. repeat split; auto.
    intros c' [Hc'| ->]; [|lia].
    destruct (snd st).
    + destruct Hb as (c & _ & _ & Hv & Hmax). specialize (Hmax _ Hc'). lia.
    + destruct Hb as [_ Hn]. destruct (Hn _ Hc').
  - destruct (snd st).
    + destruct Hb as (c & Hc & Hp & Hv & Hmax). exists c. repeat split; auto.
      intros c' [Hc'| ->]; [auto|lia].
    + destruct Hb as [H0 _]. lia.
Qed.

(** A loop each round of which adds the candidates [Q x] of its element. *)
Lemma for_each_best {A : Type} (body : search_state -> A -> result search_state)
    (Q : A -> cand -> Prop) (l : list A) :
  (forall x P st, In x l -> best P st ->
     exists st', body st x = Ok st' /\ best (fun c => P c \/ Q x c) st') ->
  forall P st, best P st ->
    exists st', for_each l body st = Ok st' /\
                best (fun c => P c \/ exists x, In x l /\ Q x c) st'.
Proof.
  induction l as [|x l IH]; intros Hstep P st Hb; simpl.
  - exists st. split; auto. eapply best_ext; [|exact Hb].
    intros c. split; auto. intros [H|(x & [] & _)]; auto.
  - destruct (Hstep x P st (or_introl eq_refl) Hb) as (st1 & E1 & Hb1).
    rewrite E1.
    destruct (IH (fun y P' s Hy => Hstep y P' s (or_intror Hy)) _ _ Hb1)
      as (st2 & E2 & Hb2).
    exists st2. split; auto. eapply best_ext; [|exact Hb2].
    intros c. split.
    + intros [[H|H]|(y & Hy & H)]; eauto.
    + intros [H|(y & [<-|Hy] & H)]; eauto.
Qed.

Section Search.
Variables tw ts : table.
Hypothesis Hw : keyed_table tw.
Hypothesis Hs : square_table ts.

Lemma class_of_keyed n k w :
  In w (class_of tw n k) -> n = String.length w /\ k = class_key w.
Proof.
  unfold class_of. destruct (tget tw n k) as [cls|] eqn:E; [|intros []].
  intros H. destruct Hw as [_ Hk]. eapply Hk; eauto.
Qed.

Lemma in_table_class n w :
  in_table tw n w -> In w (class_of tw (String.length w) (class_key w)).
Proof.
  intros (k & cls & H & Hin). destruct Hw as [_ Hk].
  destruct (Hk _ _ _ _ H Hin) as [-> ->]. unfold class_of. rewrite H. exact Hin.
Qed.

Lemma square_ival n s : in_table ts n s -> exists z, (0 < z)%Z /\ int_ s = Ok z /\ ival s = z.
Proof.
  intros H. destruct Hs as [_ Hz]. destruct (Hz _ _ H) as (z & Hpos & ->).
  exists z. unfold ival. rewrite int_str. auto.
Qed.

Lemma candidate_positive c : candidate tw ts c -> (0 < cand_value c)%Z.
Proof.
  destruct c as [[[w1 s1] w2] s2]. intros (_ & _ & _ & H1 & _).
  destruct (square_ival _ _ H1) as (z & Hz & _ & E). simpl. lia.
Qed.

End Search.

Lemma squares_of_size_present (sbs : dict nat pyset) n s :
  In s (squares_of_size sbs n) ->
  dget Nat.eq_dec sbs n = Some (squares_of_size sbs n).
Proof.
  unfold squares_of_size.
  destruct (dget Nat.eq_dec sbs n); [reflexivity|intros []].
Qed.

(** The loops of the search, on well-formed tables, for any enumeration
    [wl] of the words of the table and any dictionary [sbs] that holds,
    length by length, the squares of the table, in any order. *)
Section SearchLoop.
Variables tw ts : table.
Variable wl : list string.
Variable sbs : dict nat pyset.
Hypothesis Hw : keyed_table tw.
Hypothesis Hs : square_table ts.
Hypothesis Hwl : forall w, In w wl <-> exists n, in_table tw n w.
Hypothesis Hsbs : forall n s, In s (squares_of_size sbs n) <-> in_table ts n s.

Lemma try_partner_spec w1 s1 w2 :
  In w1 (class_of tw (String.length w1) (class_key w1)) ->
  In w2 (class_of tw (String.length w1) (class_key w1)) ->
  in_table ts (String.length w1) s1 ->
  is_bijection w1 s1 = true ->
  forall P st, best P st ->
    exists st',
      try_partner sbs (dict_of_zip (chars w1) (chars s1)) w1 s1 st w2 = Ok st' /\
      best (fun c => P c \/ (candidate tw ts c /\ exists s2, c = (w1, s1, w2, s2))) st'.
Proof.
  intros H1 H2 Hs1 Hbij P st Hb. unfold try_partner.
  destruct (String.eqb_spec w2 w1) as [->|Nw].
  { exists st. split; auto. eapply best_ext; [|exact Hb].
    intros c; split; auto. intros [H|[Hc (s2 & ->)]]; auto.
    destruct Hc as (_ & _ & N & _). congruence. }
  destruct (class_of_keyed tw Hw _ _ _ H2) as [Hlen Hkey].
  destruct (is_bijection_spec _ _ Hbij) as (Hle & Eb & _ & _ & _ & Hnd & _).
  assert (Ht : translate (dict_of_zip (chars w1) (chars s1)) (chars w2) =
               Ok (map (subst (dict_of_zip (chars w1) (chars s1))) (chars w2))).
  { apply translate_ok. intros c Hc.
    apply (Permutation_in _ (same_key_perm _ _ (eq_sym Hkey))) in Hc.
    rewrite Eb. destruct (dget_combine_In ascii_dec (chars w1) (chars s1) c Hc) as (v & ->).
    - rewrite !length_chars. exact Hle.
    - discriminate. }
  rewrite Ht. simpl.
  set (s2 := join (map (subst (dict_of_zip (chars w1) (chars s1))) (chars w2))).
  assert (L2 : String.length s2 = String.length w1).
  { unfold s2. rewrite length_join, length_map, length_chars. auto. }
  rewrite L2.
  assert (Hsq : In s1 (squares_of_size sbs (String.length w1))).
  { apply Hsbs. exact Hs1. }
  rewrite (squares_of_size_present _ _ _ Hsq).
  assert (Hc0 : forall s2', candidate tw ts (w1, s1, w2, s2') -> s2' = s2).
  { intros s2' (_ & _ & _ & _ & _ & T & _). rewrite Ht in T. inversion T.
    apply chars_inj. unfold s2. rewrite chars_join. auto. }
  destruct (set_mem s2 (squares_of_size sbs (String.length w1))) eqn:Em.
  - apply set_mem_In, Hsbs in Em.
    destruct (square_ival ts Hs _ _ Hs1) as (z1 & P1 & I1 & V1).
    destruct (square_ival ts Hs _ _ Em) as (z2 & P2 & I2 & V2).
    rewrite I1, I2. simpl.
    pose proof (best_add P st (w1, s1, w2, s2) Hb) as Ha. simpl in Ha.
    rewrite V1, V2 in Ha.
    exists (if (Z.max z1 z2 >? fst st)%Z
            then (Z.max z1 z2, Some ((w1, z1), (w2, z2))) else st).
    split; [destruct (Z.max z1 z2 >? fst st)%Z; reflexivity|].
    eapply best_ext; [|apply Ha; lia].
    intros c. split.
    + intros [H| ->]; auto. right. split; eauto.
      repeat split; auto. unfold s2. rewrite chars_join. exact Ht.
    + intros [H|[Hc (s2' & ->)]]; auto. right. rewrite (Hc0 _ Hc). reflexivity.
  - exists st. split; auto. eapply best_ext; [|exact Hb].
    intros c; split; auto. intros [H|[Hc (s2' & ->)]]; auto. exfalso.
    pose proof (Hc0 _ Hc) as ->. destruct Hc as (_ & _ & _ & _ & _ & _ & Hin).
    apply Hsbs in Hin.
    apply set_mem_In in Hin. congruence.
Qed.

Lemma try_square_spec w1 s1 :
  In w1 (class_of tw (String.length w1) (class_key w1)) ->
  in_table ts (String.length w1) s1 ->
  forall P st, best P st ->
    exists st',
      try_square tw sbs w1 (class_key w1) (String.length w1) st s1 = Ok st' /\
      best (fun c => P c \/
                     (candidate tw ts c /\ exists w2 s2, c = (w1, s1, w2, s2))) st'.
Proof.
  intros H1 Hs1 P st Hb. unfold try_square.
  destruct (_ || _)%bool eqn:G.
  - exists st. split; auto. eapply best_ext; [|exact Hb].
    intros c; split; auto. intros [H|[Hc (w2 & s2 & ->)]]; auto. exfalso.
    destruct Hc as (_ & _ & _ & _ & Hbij & _). unfold is_bijection in Hbij.
    rewrite G in Hbij. discriminate.
  - assert (Hbij : is_bijection w1 s1 = true).
    { unfold is_bijection. rewrite G. reflexivity. }
    destruct (for_each_best
                (try_partner sbs (dict_of_zip (chars w1) (chars s1)) w1 s1)
                (fun w2 c => candidate tw ts c /\ exists s2, c = (w1, s1, w2, s2))
                (class_of tw (String.length w1) (class_key w1))) with (P := P) (st := st)
      as (st' & E & Hb'); auto.
    { intros w2 P' st0 Hin Hb0. apply try_partner_spec; auto. }
    exists st'. split; auto. eapply best_ext; [|exact Hb'].
    intros c; split.
    + intros [H|(w2 & Hin & Hc & s2 & ->)]; eauto 6.
    + intros [H|[Hc (w2 & s2 & ->)]]; auto. right. exists w2.
      split; [apply Hc|]. eauto.
Qed.

Lemma try_word_spec w1 :
  In w1 wl ->
  forall P st, best P st ->
    exists st',
      try_word tw sbs st w1 = Ok st' /\
      best (fun c => P c \/
                     (candidate tw ts c /\ exists s1 w2 s2, c = (w1, s1, w2, s2))) st'.
Proof.
  intros Hin P st Hb. unfold try_word.
  apply Hwl in Hin. destruct Hin as (n0 & Hin).
  apply (in_table_class tw Hw) in Hin.
  destruct (for_each_best
              (try_square tw sbs w1 (class_key w1) (String.length w1))
              (fun s1 c => candidate tw ts c /\ exists w2 s2, c = (w1, s1, w2, s2))
              (squares_of_size sbs (String.length w1))) with (P := P) (st := st)
    as (st' & E & Hb'); auto.
  { intros s1 P' st0 Hs1 Hb0. apply try_square_spec; auto.
    apply Hsbs in Hs1. exact Hs1. }
  exists st'. split; auto. eapply best_ext; [|exact Hb'].
  intros c; split.
  - intros [H|(s1 & Hs1 & Hc & w2 & s2 & ->)]; eauto 7.
  - intros [H|[Hc (s1 & w2 & s2 & ->)]]; auto. right. exists s1.
    split; [|eauto]. apply Hsbs. apply Hc.
Qed.

(** The search on well-formed tables raises nothing and ends on a
    candidate of the largest value, in whatever order it enumerates. *)
Lemma search_loop_spec :
  exists st, search_loop tw wl sbs = Ok st /\ best (candidate tw ts) st.
Proof.
  unfold search_loop.
  destruct (for_each_best (try_word tw sbs)
              (fun w1 c => candidate tw ts c /\ exists s1 w2 s2, c = (w1, s1, w2, s2))
              wl) with (P := fun _ : cand => False) (st := (0%Z, @None pair))
    as (st' & E & Hb'); auto.
  { intros w1 P' st0 Hin Hb0. apply try_word_spec; auto. }
  { split; auto. }
  exists st'. split; auto. eapply best_ext; [|exact Hb'].
  intros c; split.
  - intros [[]|(w1 & _ & Hc & _)]; auto.
  - intros Hc. right. destruct c as [[[w1 s1] w2] s2]. exists w1.
    split; [|eauto 6]. apply Hwl.
    destruct Hc as (H1 & _). unfold class_of in H1.
    destruct (tget tw (String.length w1) (class_key w1)) as [cls|] eqn:Et; [|destruct H1].
    exists (String.length w1), (class_key w1), cls. auto.
Qed.
End SearchLoop.

(** The same for the order that the model of [main] takes. *)
Lemma pair_search_spec tw ts :
  keyed_table tw -> square_table ts ->
  exists st, pair_search tw ts = Ok st /\ best (candidate tw ts) st.
Proof.
  intros Hw Hs.
  apply (search_loop_spec tw ts (all_words tw) (squares_by_size_of ts) Hw Hs).
  - intros w. apply all_words_In. apply Hw.
  - intros n s. apply squares_of_size_In. apply Hs.
Qed.

(** ** The tables of the groupers, free of any order *)

(** [w] sits in the class [k] of length [n] of the words [l], and that
    class has a second member. *)
Definition member (l : list string) (n : nat) (k w : string) : Prop :=
  In w l /\ class_key w = k /\ n = String.length w /\
  exists w', In w' l /\ w' <> w /\ class_key w' = k.

Lemma other_member (w : string) (cls : list string) :
  NoDup cls -> (2 <= List.length cls)%nat -> In w cls ->
  exists w', In w' cls /\ w' <> w.
Proof.
  destruct cls as [|a [|b cls]]; simpl; try lia.
  intros Hnd _ Hin. inversion Hnd as [|? ? Ha _]; subst.
  destruct (string_dec a w) as [->|N].
  - exists b. split; auto. intros ->. apply Ha. left. reflexivity.
  - exists a. auto.
Qed.

Lemma anagram_table_member l t n k w :
  anagram_table l t ->
  ((exists cls, tget t n k = Some cls /\ In w cls) <-> member l n k w).
Proof.
  intros (Hshape & Hcls & Hall). split.
  - intros (cls & Ht & Hin). destruct (Hcls _ _ _ Ht) as (Hn & Hnd & H2 & Hm).
    destruct (proj1 (Hm w) Hin) as [Hl Hk].
    destruct (other_member w cls Hnd H2 Hin) as (w' & Hin' & N).
    destruct (proj1 (Hm w') Hin') as [Hl' Hk'].
    repeat split; auto.
    + subst n. rewrite <- Hk. apply class_key_length.
    + exists w'. auto.
  - intros (Hl & Hk & Hn & w' & Hl' & N & Hk').
    destruct (Hall w w') as (cls & Ht); auto; try congruence.
    exists cls. subst n k. split; auto.
    destruct (Hcls _ _ _ Ht) as (_ & _ & _ & Hm). apply Hm. auto.
Qed.

Lemma anagram_table_keyed l t : anagram_table l t -> keyed_table t.
Proof.
  intros H. split; [apply H|]. intros n k cls w Ht Hin.
  assert (M : member l n k w).
  { eapply anagram_table_member; eauto. }
  destruct M as (_ & Hk & Hn & _). auto.
Qed.

Lemma class_of_member l t n k w :
  anagram_table l t -> (In w (class_of t n k) <-> member l n k w).
Proof.
  intros H. rewrite <- (anagram_table_member l t n k w H). unfold class_of.
  destruct (tget t n k) as [cls|].
  - split; [eauto|]. intros (c & E & Hin). inversion E; subst; auto.
  - split; [intros []|]. intros (c & E & _). discriminate.
Qed.

Lemma in_table_member l t n w :
  anagram_table l t -> (in_table t n w <-> exists k, member l n k w).
Proof.
  intros H. unfold in_table. split.
  - intros (k & cls & Ht & Hin). exists k. eapply anagram_table_member; eauto.
  - intros (k & M). exists k. apply (anagram_table_member l t n k w H) in M.
    destruct M as (cls & Ht & Hin). eauto.
Qed.

Lemma anagram_table_same_words l l' t :
  (forall w, In w l <-> In w l') -> anagram_table l t -> anagram_table l' t.
Proof.
  intros E (Hshape & Hcls & Hall). split; auto. split.
  - intros n k cls Ht. destruct (Hcls _ _ _ Ht) as (H1 & H2 & H3 & H4).
    repeat split; auto; try (apply H4; assumption).
    + apply E. apply H4. assumption.
    + intros [Hin Hk]. apply H4. split; auto. apply E. exact Hin.
  - intros w w' Hw Hw'. apply Hall; apply E; assumption.
Qed.

(** ** The squares that are enumerated *)

Lemma py_range_In lo hi x : In x (py_range lo hi) <-> (lo <= x < hi)%Z.
Proof.
  unfold py_range. rewrite in_map_iff. split.
  - intros (i & <- & Hi). apply in_seq in Hi. lia.
  - intros H. exists (Z.to_nat (x - lo)). split; [lia|]. apply in_seq. lia.
Qed.

Lemma square_strings_In d s :
  In s (square_strings d) <->
  exists x, (1 <= x <= root_bound d)%Z /\ s = str_ (x ^ 2).
Proof.
  unfold square_strings. rewrite in_map_iff. split.
  - intros (x & <- & Hx). apply py_range_In in Hx. exists x. split; [lia|reflexivity].
  - intros (x & Hx & ->). exists x. split; auto. apply py_range_In. lia.
Qed.

Lemma square_strings_upto_In b s :
  In s (square_strings_upto b) <->
  exists x, (1 <= x <= b)%Z /\ s = str_ (x ^ 2).
Proof.
  unfold square_strings_upto. rewrite in_map_iff. split.
  - intros (x & <- & Hx). apply py_range_In in Hx. exists x. split; [lia|reflexivity].
  - intros (x & Hx & ->). exists x. split; auto. apply py_range_In. lia.
Qed.

Lemma squares_upto_square_table b t :
  anagram_table (square_strings_upto b) t -> square_table t.
Proof.
  intros H. split; [eapply anagram_table_keyed; eauto|].
  intros n s Hin. apply (in_table_member _ _ _ _ H) in Hin.
  destruct Hin as (k & Hl & _). apply square_strings_upto_In in Hl.
  destruct Hl as (x & Hx & ->). exists (x ^ 2)%Z. split; [nia|reflexivity].
Qed.

Lemma squares_square_table d t :
  anagram_table (square_strings d) t -> square_table t.
Proof. exact (squares_upto_square_table (root_bound d) t). Qed.

(** ** From the tables to [main] *)

Lemma fold_max_In ks k : In (fold_left Nat.max ks k) (k :: ks).
Proof.
  revert k; induction ks as [|a ks IH]; intros k; simpl; auto.
  destruct (IH (Nat.max k a)) as [E|H]; [|right; right; exact H].
  destruct (Nat.max_spec k a) as [[_ M]|[_ M]]; rewrite M in E |- *;
    [right; left|left]; exact E.
Qed.

Lemma fold_max_ge ks k x : In x (k :: ks) -> (x <= fold_left Nat.max ks k)%nat.
Proof.
  assert (G : forall ks k, (x <= k)%nat \/ In x ks -> (x <= fold_left Nat.max ks k)%nat).
  { clear. induction ks as [|a ks IH]; intros k; simpl.
    - intros [H|[]]. exact H.
    - intros [H|[->|H]]; apply IH; auto; left; lia. }
  intros [->|H]; apply G; auto.
Qed.

Lemma anagram_table_key_positive l t n :
  anagram_table l t -> In n (dkeys t) -> (0 < n)%nat.
Proof.
  intros H Hn. pose proof H as (Hshape & Hcls & _).
  unfold dkeys in Hn. apply in_map_iff in Hn. destruct Hn as ([n' inner] & E & Hin).
  simpl in E; subst n'. destruct Hshape as [Hnd Hinner].
  destruct (Hinner _ _ Hin) as [Hndi Hne].
  destruct inner as [|[k cls] inner]; [congruence|].
  assert (Ht : tget t n k = Some cls).
  { apply tget_In; [split; auto|]. exists ((k, cls) :: inner). simpl; auto. }
  destruct (Hcls _ _ _ Ht) as (_ & Hndc & H2 & Hm).
  destruct cls as [|a [|b cls]]; simpl in H2; try lia.
  assert (Ma : member l n k a).
  { eapply anagram_table_member; eauto. exists (a :: b :: cls). simpl; auto. }
  assert (Mb : member l n k b).
  { eapply anagram_table_member; eauto. exists (a :: b :: cls). simpl; auto. }
  destruct Ma as (_ & _ & La & _). destruct Mb as (_ & _ & Lb & _).
  destruct (Nat.eq_dec n 0) as [->|N]; [|lia]. exfalso.
  inversion Hndc as [|? ? Ha _]; subst. apply Ha. left.
  destruct a; [|discriminate]. destruct b; [reflexivity|discriminate].
Qed.

Lemma max_key_spec l t :
  anagram_table l t ->
  (t = [] /\ max_key t = Raise ValueError) \/
  (exists d, max_key t = Ok d /\ (0 < d)%nat /\ In d (dkeys t) /\
             forall n, In n (dkeys t) -> (n <= d)%nat).
Proof.
  intros H. unfold max_key. destruct t as [|[n inner] t]; [left; auto|right].
  simpl. eexists. split; [reflexivity|].
  pose proof (fold_max_In (dkeys t) n) as Hin.
  split; [|split].
  - eapply anagram_table_key_positive; eauto.
  - exact Hin.
  - intros m Hm. apply fold_max_ge. exact Hm.
Qed.

Lemma get_anagramic_squares_run d :
  (0 < d)%Z ->
  exists ts, get_anagramic_squares (PyInt d) = Ok ts /\
             anagram_table (square_strings d) ts.
Proof.
  intros Hd. unfold get_anagramic_squares.
  destruct (Z.gtb_spec d 0); [|lia]. apply group_strings_spec.
Qed.

(** Every run of [main] on a word list: either the table is empty and
    line 157 raises, or the search runs to its end and line 195 reports
    what it found. *)
Lemma main_words_run words :
  exists tw, group_strings words = Ok tw /\ anagram_table words tw /\
    ((tw = [] /\ main_words words = Raise ValueError) \/
     (exists d ts st,
        tw <> [] /\ max_key tw = Ok d /\ (0 < d)%nat /\
        get_anagramic_squares (PyInt (Z.of_nat d)) = Ok ts /\
        anagram_table (square_strings (Z.of_nat d)) ts /\
        pair_search tw ts = Ok st /\ best (candidate tw ts) st /\
        main_words words = report (snd st))).
Proof.
  destruct (group_strings_spec words) as (tw & Hg & Htw).
  exists tw. split; auto. split; auto.
  unfold main_words, main_of_table. rewrite Hg. cbn [bind].
  destruct (max_key_spec _ _ Htw) as [[-> Hm]|(d & Hm & Hd & _)].
  - left. split; auto.
  - right. rewrite Hm. cbn [bind].
    destruct (get_anagramic_squares_run (Z.of_nat d)) as (ts & Hq & Hts); [lia|].
    rewrite Hq. cbn [bind].
    destruct (pair_search_spec tw ts) as (st & Hp & Hb).
    { eapply anagram_table_keyed; eauto. }
    { eapply squares_square_table; eauto. }
    rewrite Hp. cbn [bind]. exists d, ts, st.
    split; [intros ->; discriminate|].
    split; [reflexivity|]. do 5 (split; [assumption|]). reflexivity.
Qed.

Lemma main_of_words fs name line :
  fs name = Some line -> main fs (PyStr name) = main_words (parse_words line).
Proof. intros H. unfold main, main_words, get_anagramic_words. rewrite H. reflexivity. Qed.

(** *** The same with the float expressions as parameters *)

Lemma get_anagramic_squares_with_run flo d :
  (0 < d)%Z ->
  match flo d with
  | Ok b =>
      exists ts, get_anagramic_squares_with flo (PyInt d) = Ok ts /\
                 anagram_table (square_strings_upto b) ts
  | Raise e => get_anagramic_squares_with flo (PyInt d) = Raise e
  end.
Proof.
  intros Hd. unfold get_anagramic_squares_with.
  destruct (Z.gtb_spec d 0); [|lia].
  destruct (flo d) as [b|e]; cbn [bind]; [apply group_strings_spec|reflexivity].
Qed.

(** Every run of [main_with] on a word list: the table is empty and
    line 157 raises; or line 105 raises; or the search runs to its end
    and lines 195-196 report what it found. *)
Lemma main_words_with_run flo isq words :
  exists tw, group_strings words = Ok tw /\ anagram_table words tw /\
    ((tw = [] /\ main_words_with flo isq words = Raise ValueError) \/
     (exists d,
        tw <> [] /\ max_key tw = Ok d /\ (0 < d)%nat /\
        ((exists e, flo (Z.of_nat d) = Raise e /\
                    main_words_with flo isq words = Raise e) \/
         (exists b ts st,
            flo (Z.of_nat d) = Ok b /\
            anagram_table (square_strings_upto b) ts /\
            pair_search tw ts = Ok st /\ best (candidate tw ts) st /\
            main_words_with flo isq words = report_with isq (snd st))))).
Proof.
  destruct (group_strings_spec words) as (tw & Hg & Htw).
  exists tw. split; auto. split; auto.
  unfold main_words_with, main_of_table_with. rewrite Hg. cbn [bind].
  destruct (max_key_spec _ _ Htw) as [[-> Hm]|(d & Hm & Hd & _)].
  - left. split; auto.
  - right. rewrite Hm. cbn [bind]. exists d.
    split; [intros ->; discriminate|]. split; [reflexivity|]. split; [exact Hd|].
    pose proof (get_anagramic_squares_with_run flo (Z.of_nat d)) as Hq.
    destruct (flo (Z.of_nat d)) as [b|e].
    + right. destruct Hq as (ts & Hq & Hts); [lia|]. rewrite Hq. cbn [bind].
      destruct (pair_search_spec tw ts) as (st & Hp & Hb).
      { eapply anagram_table_keyed; eauto. }
      { eapply squares_upto_square_table; eauto. }
      rewrite Hp. cbn [bind]. exists b, ts, st.
      split; [reflexivity|]. do 3 (split; [assumption|]). reflexivity.
    + left. exists e. split; [reflexivity|]. rewrite Hq by lia. reflexivity.
Qed.

Lemma main_with_of_words flo isq fs name line :
  fs name = Some line ->
  main_with flo isq fs (PyStr name) = main_words_with flo isq (parse_words line).
Proof.
  intros H. unfold main_with, main_words_with, get_anagramic_words.
  rewrite H. reflexivity.
Qed.

(** [main] is [main_with] at the mathematical values of the floats. *)
Lemma main_with_exact fs v :
  main_with exact_floor_pow10_half exact_int_sqrt fs v = main fs v.
Proof. destruct v; reflexivity. Qed.

(** ** Square anagram word pairs, as the problem defines them *)

(** The decimal form of a positive perfect square (it has no leading
    zero). *)
Definition is_square_string (s : string) : Prop :=
  exists x, (0 < x)%Z /\ s = str_ (x ^ 2).

(** Two distinct words of the list with the same sorted form, and one
    substitution of digits for letters, different letters getting
    different digits, that sends each word onto a square. *)
Definition square_anagram_pair (words : list string) (w1 s1 w2 s2 : string) : Prop :=
  In w1 words /\ In w2 words /\ w1 <> w2 /\ class_key w1 = class_key w2 /\
  is_square_string s1 /\ is_square_string s2 /\
  exists f : ascii -> ascii,
    (forall c c', In c (chars w1) -> In c' (chars w1) -> f c = f c' -> c = c') /\
    chars s1 = map f (chars w1) /\ chars s2 = map f (chars w2).

Lemma NoDup_map_injective {A B : Type} (f : A -> B) (l : list A) x y :
  NoDup (map f l) -> In x l -> In y l -> f x = f y -> x = y.
Proof.
  induction l as [|a l IH]; simpl; [tauto|].
  intros Hnd Hx Hy E. inversion Hnd as [|? ? Ha Hl]; subst.
  destruct Hx as [->|Hx], Hy as [->|Hy]; auto.
  - exfalso. apply Ha. rewrite E. apply in_map. exact Hy.
  - exfalso. apply Ha. rewrite <- E. apply in_map. exact Hx.
Qed.

(** What the search finds is a square anagram word pair, whatever the
    bound of the enumeration of the squares. *)
Lemma candidate_sound_upto words b tw ts w1 s1 w2 s2 :
  anagram_table words tw -> anagram_table (square_strings_upto b) ts ->
  candidate tw ts (w1, s1, w2, s2) ->
  square_anagram_pair words w1 s1 w2 s2.
Proof.
  intros Htw Hts (H1 & H2 & N & Hs1 & Hbij & Ht & Hs2).
  apply (class_of_member _ _ _ _ _ Htw) in H1, H2.
  destruct H1 as (L1 & _). destruct H2 as (L2 & K2 & _).
  assert (Sq : forall s, in_table ts (String.length w1) s ->
                 is_square_string s /\ String.length s = String.length w1).
  { intros s Hin. apply (in_table_member _ _ _ _ Hts) in Hin.
    destruct Hin as (k & Hl & _ & Hn & _). apply square_strings_upto_In in Hl.
    destruct Hl as (x & Hx & ->). split; auto. exists x. split; [lia|reflexivity]. }
  destruct (Sq _ Hs1) as [Q1 Len1]. destruct (Sq _ Hs2) as [Q2 _].
  destruct (is_bijection_spec _ _ Hbij) as (_ & Eb & _ & _ & _ & Nd1 & Nd2).
  rewrite <- Len1, <- length_chars, firstn_all in Nd2.
  assert (Hmap : map (subst (dict_of_zip (chars w1) (chars s1))) (chars w1) = chars s1).
  { rewrite Eb. apply subst_combine_self; auto. rewrite !length_chars. auto. }
  repeat split; auto.
  exists (subst (dict_of_zip (chars w1) (chars s1))). repeat split; auto.
  - intros c c'. apply NoDup_map_injective. rewrite Hmap. exact Nd2.
  - apply translate_inv in Ht. destruct Ht as [-> _]. reflexivity.
Qed.

Lemma candidate_sound words d tw ts w1 s1 w2 s2 :
  anagram_table words tw -> anagram_table (square_strings d) ts ->
  candidate tw ts (w1, s1, w2, s2) ->
  square_anagram_pair words w1 s1 w2 s2.
Proof. exact (candidate_sound_upto words (root_bound d) tw ts w1 s1 w2 s2). Qed.

(** ** Completeness of the search on words without repeated letters *)

Lemma ascii_code_inj a b : nat_of_ascii a = nat_of_ascii b -> a = b.
Proof.
  intros H. rewrite <- (ascii_nat_embedding a), <- (ascii_nat_embedding b), H.
  reflexivity.
Qed.

Lemma insert_sorted_comm a b l :
  insert_sorted a (insert_sorted b l) = insert_sorted b (insert_sorted a l).
Proof.
  induction l as [|c l IH]; simpl; unfold ascii_leb;
    repeat (match goal with
            | |- context [(?x <=? ?y)%nat] => destruct (Nat.leb_spec x y)
            end; simpl; unfold ascii_leb);
    try reflexivity; try lia; try (f_equal; exact IH).
  - assert (a = b) by (apply ascii_code_inj; lia). subst. reflexivity.
  - assert (a = b) by (apply ascii_code_inj; lia). subst. reflexivity.
Qed.

(** Anagrams have the same sorted form. *)
Lemma sorted_of_perm l l' : Permutation l l' -> sorted l = sorted l'.
Proof.
  induction 1; simpl; try congruence.
  apply insert_sorted_comm.
Qed.

Lemma perm_same_key w w' :
  Permutation (chars w) (chars w') -> class_key w = class_key w'.
Proof. intros H. unfold class_key. f_equal. apply sorted_of_perm, H. Qed.

Lemma of_lu_bound d :
  (DecimalPos.Unsigned.of_lu d < 10 ^ N.of_nat (Decimal.nb_digits d))%N.
Proof.
  induction d; cbn [DecimalPos.Unsigned.of_lu Decimal.nb_digits];
    rewrite ?Nat2N.inj_succ, ?N.pow_succ_r'; [reflexivity|lia..].
Qed.

Lemma string_of_uint_length d :
  String.length (NilEmpty.string_of_uint d) = Decimal.nb_digits d.
Proof. induction d; simpl; auto. Qed.

(** A non-negative integer is below the power of ten of the length of
    its decimal form. *)
Lemma str_length_bound z :
  (0 <= z)%Z -> (z < 10 ^ Z.of_nat (String.length (str_ z)))%Z.
Proof.
  intros Hz. destruct z as [|p|p]; [reflexivity| |lia].
  unfold str_. simpl.
  assert (E : NilZero.string_of_uint (Pos.to_uint p) =
              NilEmpty.string_of_uint (Pos.to_uint p)).
  { pose proof (DecimalPos.Unsigned.to_uint_nonnil p).
    destruct (Pos.to_uint p); simpl; congruence. }
  rewrite E, string_of_uint_length.
  pose proof (of_lu_bound (Decimal.rev (Pos.to_uint p))) as B.
  rewrite <- DecimalPos.Unsigned.of_uint_alt, DecimalPos.Unsigned.of_to in B.
  rewrite DecimalFacts.nb_digits_rev in B.
  apply N2Z.inj_lt in B. rewrite N2Z.inj_pow, nat_N_Z in B. exact B.
Qed.

Lemma dict_of_pairs_nodup {K V : Type} (K_dec : forall x y : K, {x = y} + {x <> y})
    (acc : dict K V) (l : list (K * V)) :
  NoDup (dkeys acc ++ map fst l) -> dict_of_pairs K_dec acc l = acc ++ l.
Proof.
  unfold dict_of_pairs.
  revert acc; induction l as [|[k v] l IH]; intros acc H; simpl.
  - rewrite app_nil_r. reflexivity.
  - assert (Hk : dget K_dec acc k = None).
    { apply dget_None. intros Hin. apply NoDup_remove_2 in H. apply H.
      apply in_or_app. left. exact Hin. }
    rewrite (dset_fresh _ _ _ _ Hk), IH, <- app_assoc; [reflexivity|].
    unfold dkeys. rewrite map_app, <- app_assoc. exact H.
Qed.

Lemma is_bijection_intro w1 s1 :
  NoDup (chars w1) -> NoDup (chars s1) -> String.length s1 = String.length w1 ->
  is_bijection w1 s1 = true.
Proof.
  intros N1 N2 L. unfold is_bijection, dict_of_zip.
  pose proof (dict_of_pairs_nodup ascii_dec [] (combine (chars w1) (chars s1))) as E1.
  pose proof (dict_of_pairs_nodup ascii_dec [] (combine (chars s1) (chars w1))) as E2.
  unfold dict_of_pairs in E1, E2. simpl in E1, E2.
  rewrite E1, E2.
  - rewrite !length_combine, !length_chars, L, Nat.min_id, Nat.ltb_irrefl.
    reflexivity.
  - rewrite map_fst_combine; [exact N2|]. rewrite !length_chars. lia.
  - rewrite map_fst_combine; [exact N1|]. rewrite !length_chars. lia.
Qed.

Lemma subst_combine_map (f : ascii -> ascii) ks c :
  In c ks -> subst (combine ks (map f ks)) c = f c.
Proof.
  induction ks as [|k ks IH]; simpl; [tauto|]. unfold subst. simpl.
  destruct (ascii_dec c k) as [->|N]; [reflexivity|].
  intros [E|H]; [congruence|]. apply IH, H.
Qed.

Lemma injective_map_NoDup {A B : Type} (f : A -> B) (l : list A) :
  (forall x y, In x l -> In y l -> f x = f y -> x = y) ->
  NoDup l -> NoDup (map f l).
Proof.
  intros Hinj. induction 1 as [|a l Ha Hl IH]; simpl; constructor.
  - intros Hin. apply in_map_iff in Hin. destruct Hin as (y & E & Hy).
    apply Ha. rewrite <- (Hinj y a); simpl; auto.
  - apply IH. intros x y Hx Hy. apply Hinj; simpl; auto.
Qed.

(** A square anagram word pair whose first word has pairwise distinct
    letters is a candidate of the search on the table of the words and
    the table of the squares enumerated up to [b], as soon as [b] is at
    least the root of the largest square with as many digits as the word
    has letters. *)
Lemma candidate_complete_upto words b tw ts w1 s1 w2 s2 :
  anagram_table words tw -> anagram_table (square_strings_upto b) ts ->
  (Z.sqrt (10 ^ Z.of_nat (String.length w1) - 1) <= b)%Z ->
  square_anagram_pair words w1 s1 w2 s2 -> NoDup (chars w1) ->
  candidate tw ts (w1, s1, w2, s2).
Proof.
  intros Htw Hts Hd (H1 & H2 & N & K & Q1 & Q2 & f & Hinj & E1 & E2) Nd.
  pose proof (same_key_perm _ _ K) as P.
  assert (L12 : String.length w2 = String.length w1).
  { symmetry. apply same_key_length, K. }
  assert (Ls1 : String.length s1 = String.length w1).
  { rewrite <- !length_chars, E1, length_map. reflexivity. }
  assert (Ls2 : String.length s2 = String.length w1).
  { rewrite <- L12, <- !length_chars, E2, length_map. reflexivity. }
  assert (Ps : Permutation (chars s1) (chars s2)).
  { rewrite E1, E2. apply Permutation_map, P. }
  assert (Ns : s1 <> s2).
  { intros Es. apply N. apply chars_inj.
    assert (Em : map f (chars w1) = map f (chars w2)) by congruence.
    clear - Em Hinj P.
    assert (Hsub : forall c, In c (chars w2) -> In c (chars w1)).
    { intros c Hc. apply (Permutation_in _ (Permutation_sym P)), Hc. }
    revert Em Hinj Hsub. generalize (chars w2). generalize (chars w1).
    intros l1. assert (G : forall l0 l2, (forall c, In c l1 -> In c l0) ->
                 (forall c, In c l2 -> In c l0) ->
                 (forall c c', In c l0 -> In c' l0 -> f c = f c' -> c = c') ->
                 map f l1 = map f l2 -> l1 = l2).
    { induction l1 as [|a l1 IH]; intros l0 [|b l2] S1 S2 Hinj Em;
        simpl in Em; try discriminate; auto.
      inversion Em. f_equal.
      - apply Hinj; auto; [apply S1|apply S2]; left; reflexivity.
      - apply (IH l0); auto; intros c Hc; [apply S1|apply S2]; right; exact Hc. }
    intros l2 Em Hinj Hsub. apply (G l1 l2); auto. }
  assert (Tab : forall s s', is_square_string s -> String.length s = String.length w1 ->
                  is_square_string s' -> s' <> s -> class_key s' = class_key s ->
                  in_table ts (String.length w1) s).
  { intros s s' (x & Hx & ->) Ls (x' & Hx' & ->) Ne Ke.
    assert (Bnd : forall y, (0 < y)%Z ->
              String.length (str_ (y ^ 2)) = String.length w1 ->
              In (str_ (y ^ 2)) (square_strings_upto b)).
    { intros y Hy Ly. apply square_strings_upto_In. exists y. split; [|reflexivity].
      split; [lia|].
      apply (Z.le_trans y (Z.sqrt (10 ^ Z.of_nat (String.length w1) - 1)) b);
        [|exact Hd].
      pose proof (str_length_bound (y ^ 2)) as B. rewrite Ly in B.
      apply Z.sqrt_le_square; nia. }
    apply (in_table_member _ _ _ _ Hts). exists (class_key (str_ (x ^ 2))).
    split; [apply Bnd; auto|]. split; [reflexivity|]. split; [auto|].
    exists (str_ (x' ^ 2)). split; [|split; auto].
    apply Bnd; auto. rewrite <- Ls. apply same_key_length, Ke. }
  assert (Nd2 : NoDup (chars s1)).
  { rewrite E1. apply injective_map_NoDup; auto. }
  pose proof (is_bijection_intro w1 s1 Nd Nd2 Ls1) as Hbij.
  destruct (is_bijection_spec _ _ Hbij) as (_ & Eb & _).
  unfold candidate. split; [|split; [|split; [|split; [|split; [|split]]]]].
  - apply (class_of_member _ _ _ _ _ Htw). repeat split; auto.
    exists w2. repeat split; auto.
  - apply (class_of_member _ _ _ _ _ Htw). repeat split; auto.
    exists w1. repeat split; auto.
  - auto.
  - apply (Tab s1 s2); auto. symmetry. apply perm_same_key, Ps.
  - exact Hbij.
  - rewrite Eb, E1, E2, translate_ok.
    + f_equal. apply map_ext_in. intros c Hc. apply subst_combine_map.
      apply (Permutation_in _ (Permutation_sym P)), Hc.
    + intros c Hc. apply (Permutation_in _ (Permutation_sym P)) in Hc.
      destruct (dget_combine_In ascii_dec (chars w1) (map f (chars w1)) c Hc)
        as (v & ->); [rewrite length_map; lia|discriminate].
  - rewrite <- Ls2 at 1. rewrite Ls2. apply (Tab s2 s1); auto.
    apply perm_same_key, Ps.
Qed.

Lemma candidate_complete words d tw ts w1 s1 w2 s2 :
  anagram_table words tw -> anagram_table (square_strings d) ts ->
  (Z.of_nat (String.length w1) <= d)%Z ->
  square_anagram_pair words w1 s1 w2 s2 -> NoDup (chars w1) ->
  candidate tw ts (w1, s1, w2, s2).
Proof.
  intros Htw Hts Hd.
  apply (candidate_complete_upto words (root_bound d)); auto.
  unfold root_bound. apply Z.sqrt_le_mono.
  assert (10 ^ Z.of_nat (String.length w1) <= 10 ^ d)%Z
    by (apply Z.pow_le_mono_r; lia).
  lia.
Qed.

Lemma square_string_value s :
  is_square_string s ->
  exists x, (0 < x)%Z /\ s = str_ (x ^ 2) /\ ival s = (x ^ 2)%Z /\ Z.sqrt (ival s) = x.
Proof.
  intros (x & Hx & ->). exists x. unfold ival. rewrite int_str.
  repeat split; auto. rewrite Z.pow_2_r. apply Z.sqrt_square. lia.
Qed.

(** ** The digits of a positive integer *)

Lemma usize_nb_digits d :
  DecimalPos.Unsigned.usize d = N.of_nat (Decimal.nb_digits d).
Proof.
  induction d; cbn [DecimalPos.Unsigned.usize Decimal.nb_digits];
    rewrite ?Nat2N.inj_succ, ?IHd; reflexivity.
Qed.

Lemma to_uint_normal p : Decimal.unorm (Pos.to_uint p) = Pos.to_uint p.
Proof.
  rewrite <- (DecimalPos.Unsigned.to_of (Pos.to_uint p)).
  rewrite DecimalPos.Unsigned.of_to. reflexivity.
Qed.

(** A positive integer is at least the power of ten of the length of
    its decimal form less one: that form has no leading zero. *)
Lemma str_length_lower z :
  (0 < z)%Z -> (10 ^ (Z.of_nat (String.length (str_ z)) - 1) <= z)%Z.
Proof.
  intros Hz. destruct z as [|p|p]; try lia.
  unfold str_. simpl.
  assert (E : NilZero.string_of_uint (Pos.to_uint p) =
              NilEmpty.string_of_uint (Pos.to_uint p)).
  { pose proof (DecimalPos.Unsigned.to_uint_nonnil p).
    destruct (Pos.to_uint p); simpl; congruence. }
  rewrite E, string_of_uint_length.
  pose proof (to_uint_normal p) as Hn.
  pose proof (DecimalPos.Unsigned.to_uint_nonzero p) as Hnz.
  pose proof (DecimalPos.Unsigned.of_to p) as Hv.
  assert (Hh : forall d', Pos.to_uint p <> Decimal.D0 d').
  { intros d' Ed. unfold Decimal.unorm in Hn.
    pose proof (DecimalFacts.nzhead_nonzero (Pos.to_uint p)) as Hz0.
    destruct (Decimal.nzhead (Pos.to_uint p)) eqn:En;
      try (apply Hnz; symmetry; exact Hn);
      try (exact (Hz0 _ eq_refl)); congruence. }
  assert (B : (10 ^ N.of_nat (Decimal.nb_digits (Pos.to_uint p) - 1) <= N.pos p)%N).
  { rewrite <- Hv.
    destruct (Pos.to_uint p) as [|d|d|d|d|d|d|d|d|d|d] eqn:Ed;
      try (exfalso; eapply Hh; reflexivity);
      try (exfalso; eapply DecimalPos.Unsigned.to_uint_nonnil; exact Ed);
      cbn [Pos.of_uint Decimal.nb_digits];
      rewrite DecimalPos.Unsigned.of_uint_acc_rev, usize_nb_digits;
      replace (S (Decimal.nb_digits d) - 1)%nat with (Decimal.nb_digits d) by lia;
      nia. }
  apply N2Z.inj_le in B. rewrite N2Z.inj_pow in B.
  pose proof (DecimalPos.Unsigned.to_uint_nonnil p) as Hnn.
  assert (0 < Decimal.nb_digits (Pos.to_uint p))%nat.
  { destruct (Pos.to_uint p); simpl; try lia. congruence. }
  replace (Z.of_nat (Decimal.nb_digits (Pos.to_uint p)) - 1)%Z
    with (Z.of_N (N.of_nat (Decimal.nb_digits (Pos.to_uint p) - 1))) by lia.
  exact B.
Qed.

(** ** The length of the enumerated squares *)

Lemma square_le_pow d x :
  (0 <= d)%Z -> (1 <= x <= root_bound d)%Z -> (x ^ 2 <= 10 ^ d)%Z.
Proof.
  intros Hd Hx. unfold root_bound in Hx.
  assert (0 <= 10 ^ d)%Z by (apply Z.pow_nonneg; lia).
  pose proof (Z.sqrt_spec (10 ^ d) H) as [S _]. nia.
Qed.

Lemma short_square_enumerated d y :
  (0 < y)%Z -> (Z.of_nat (String.length (str_ (y ^ 2))) <= d)%Z ->
  In (str_ (y ^ 2)) (square_strings d).
Proof.
  intros Hy Ly. apply square_strings_In. exists y. split; [|reflexivity].
  split; [lia|]. unfold root_bound.
  apply Z.sqrt_le_square; [apply Z.pow_nonneg; lia|lia|].
  pose proof (str_length_bound (y ^ 2)) as B.
  assert (10 ^ Z.of_nat (String.length (str_ (y ^ 2))) <= 10 ^ d)%Z
    by (apply Z.pow_le_mono_r; lia).
  nia.
Qed.

(** A square that the loop enumerates has at most [d + 1] digits, and
    [d + 1] digits only if it is [10^d]. *)
Lemma enumerated_square_length d x :
  (0 <= d)%Z -> (1 <= x <= root_bound d)%Z ->
  (Z.of_nat (String.length (str_ (x ^ 2))) <= d)%Z \/ (x ^ 2 = 10 ^ d)%Z.
Proof.
  intros Hd Hx. pose proof (square_le_pow d x Hd Hx) as U.
  pose proof (str_length_lower (x ^ 2)) as L.
  set (n := Z.of_nat (String.length (str_ (x ^ 2)))) in *.
  destruct (Z_le_gt_dec n d) as [H|H]; [left; exact H|right].
  assert (10 ^ d <= 10 ^ (n - 1))%Z by (apply Z.pow_le_mono_r; lia).
  nia.
Qed.

(** ** Word lists for the examples *)

(** A word between double quotes, and a line of such words separated by
    commas, as [words.txt] has them. *)
Definition quoted (w : string) : string :=
  String dquote (w ++ String dquote EmptyString).

Definition words_line (ws : list string) : string :=
  String.concat "," (map quoted ws).

(** The table the grouping builds from [l] when the strings come in
    the order of [l]. *)
Definition table_of (l : list string) : table :=
  match group_strings l with
  | Ok t => t
  | Raise _ => []
  end.

Lemma table_of_spec l : anagram_table l (table_of l).
Proof.
  unfold table_of. destruct (group_strings_spec l) as (t & -> & H). exact H.
Qed.

(** * The claims *)

(** ** C4: no singleton class survives *)





(** ** C7: the argument checks *)

(** C7. The Word Grouper raises the assertion error on any [filename]
    that is not a string, whatever the file system holds (so before any
    read of it), and the Square Grouper raises it on any [d_max] that is
    not a positive integer. *)
Theorem C7_invalid_argument_rejected :
  (forall fs v, (forall s, v <> PyStr s) ->
     get_anagramic_words fs v = Raise AssertionError) /\
  (forall v, (forall d, v = PyInt d -> (d <= 0)%Z) ->
     get_anagramic_squares v = Raise AssertionError).
Proof.
  split.
  - intros fs v H. destruct v; try reflexivity. destruct (H s eq_refl).
  - intros v H. destruct v as [| |d|]; try reflexivity. simpl.
    specialize (H d eq_refl). destruct (Z.gtb_spec d 0); [lia|reflexivity].
Qed.

Lemma C7_invalid_argument_rejected_witness :
  get_anagramic_words (fun _ => None) (PyInt 98) = Raise AssertionError /\
  get_anagramic_squares (PyInt 0) = Raise AssertionError /\
  get_anagramic_squares (PyStr "4") = Raise AssertionError.
Proof.
  split; [|split].
  - apply (proj1 C7_invalid_argument_rejected). intros s; discriminate.
  - apply (proj2 C7_invalid_argument_rejected). intros d E. inversion E. lia.
  - apply (proj2 C7_invalid_argument_rejected). intros d E. discriminate.
Defined.

(** ** C5: the guard of line 176 *)

(** The positional mapping between the letters of [w1] and the digits
    of [s1] is a true bijection: the dictionary of line 172 and the one
    of line 173 have exactly [len(w1)] entries each, the letters of [w1]
    are pairwise distinct, so are the digits that face them, and no
    letter faces two different digits. *)
Definition true_bijection (w1 s1 : string) : Prop :=
  let n := String.length w1 in
  List.length (dict_of_zip (chars w1) (chars s1)) = n /\
  List.length (dict_of_zip (chars s1) (chars w1)) = n /\
  NoDup (chars w1) /\ NoDup (firstn n (chars s1)) /\
  forall i j c d d',
    nth_error (chars w1) i = Some c -> nth_error (chars w1) j = Some c ->
    nth_error (chars s1) i = Some d -> nth_error (chars s1) j = Some d' ->
    d = d'.

Lemma guard_true_bijection w1 s1 :
  is_bijection w1 s1 = true -> true_bijection w1 s1.
Proof.
  intros H.
  destruct (is_bijection_spec _ _ H) as (_ & _ & _ & L1 & L2 & N1 & N2).
  unfold true_bijection. repeat split; auto.
  intros i j c d d' Hi Hj Hd Hd'.
  assert (i = j).
  { apply (proj1 (NoDup_nth_error (chars w1)) N1).
    - apply nth_error_Some. congruence.
    - congruence. }
  subst j. congruence.
Qed.

(** The pair that the state holds, if any, was recorded at line 191 for
    a square string of [squares_by_size] that is in true bijection with
    the first word of the pair. *)
Definition recorded_past_guard (sbs : dict nat pyset) (st : search_state) : Prop :=
  match snd st with
  | Some ((w1, i1), _) =>
      exists s1, In s1 (squares_of_size sbs (String.length w1)) /\
                 int_ s1 = Ok i1 /\ true_bijection w1 s1
  | None => True
  end.

Lemma try_partner_past_guard sbs w1 s1 st w2 st' :
  In s1 (squares_of_size sbs (String.length w1)) ->
  true_bijection w1 s1 ->
  recorded_past_guard sbs st ->
  try_partner sbs (dict_of_zip (chars w1) (chars s1)) w1 s1 st w2 = Ok st' ->
  recorded_past_guard sbs st'.
Proof.
  intros Hin Hbij Hst. unfold try_partner.
  destruct (String.eqb w2 w1); [intros H; inversion H; subst; auto|].
  destruct (translate _ (chars w2)) as [ds|]; [|discriminate]. cbn [bind].
  destruct (dget Nat.eq_dec sbs _) as [sqs|]; [|discriminate].
  destruct (set_mem _ sqs); [|intros H; inversion H; subst; auto].
  destruct (int_ s1) as [i1|] eqn:E1; [|discriminate]. cbn [bind].
  destruct (int_ (join ds)) as [i2|]; [|discriminate]. cbn [bind].
  destruct (_ >? _)%Z; intros H; inversion H; subst; auto.
  unfold recorded_past_guard. simpl. exists s1. auto.
Qed.

Lemma try_square_past_guard tw sbs w1 ws st s1 st' :
  In s1 (squares_of_size sbs (String.length w1)) ->
  recorded_past_guard sbs st ->
  try_square tw sbs w1 ws (String.length w1) st s1 = Ok st' ->
  recorded_past_guard sbs st'.
Proof.
  intros Hin Hst. unfold try_square.
  destruct (_ || _)%bool eqn:G; [intros H; inversion H; subst; auto|].
  assert (Hbij : true_bijection w1 s1).
  { apply guard_true_bijection. unfold is_bijection. rewrite G. reflexivity. }
  apply for_each_preserves; auto.
  intros w2 s s' _. apply try_partner_past_guard; auto.
Qed.

Lemma search_loop_past_guard tw wl sbs st :
  search_loop tw wl sbs = Ok st -> recorded_past_guard sbs st.
Proof.
  unfold search_loop. apply for_each_preserves; [|exact I].
  intros w1 s s' _ Hs. unfold try_word. apply for_each_preserves; auto.
  intros s1 a a' Hin. apply try_square_past_guard; auto.
Qed.

(** C5. The search accepts a candidate square [s1] for a word [w1] only
    if their positional mapping is a true bijection.  A round of the
    loop over the squares (lines 171-193) that does anything at all,
    whether it changes the state or raises, was run on such a candidate:
    any other is skipped, the state left as it was.  Hence, on arbitrary
    tables and in any order of enumeration, the pair that a search ends
    on was recorded for a square string of [squares_by_size] in true
    bijection with its first word, and so was the pair that [main]
    returns. *)
Theorem C5_accepted_mapping_is_bijection :
  (forall tw sbs w1 ws st s1,
     try_square tw sbs w1 ws (String.length w1) st s1 <> Ok st ->
     true_bijection w1 s1) /\
  (forall tw wl sbs st w1 i1 w2 i2,
     search_loop tw wl sbs = Ok st ->
     snd st = Some ((w1, i1), (w2, i2)) ->
     exists s1, In s1 (squares_of_size sbs (String.length w1)) /\
                int_ s1 = Ok i1 /\ true_bijection w1 s1) /\
  (forall flo isq fs v w1 r1 i1 w2 r2 i2,
     main_with flo isq fs v = Ok ((w1, r1, i1), (w2, r2, i2)) ->
     exists s1, int_ s1 = Ok i1 /\ true_bijection w1 s1).
Proof.
  split; [|split].
  - intros tw sbs w1 ws st s1 H. apply guard_true_bijection.
    unfold is_bijection. unfold try_square in H.
    destruct (_ || _)%bool; [exfalso; apply H|]; reflexivity.
  - intros tw wl sbs st w1 i1 w2 i2 H E.
    apply search_loop_past_guard in H. unfold recorded_past_guard in H.
    rewrite E in H. exact H.
  - intros flo isq fs v w1 r1 i1 w2 r2 i2 H.
    unfold main_with in H. destruct v; try discriminate.
    destruct (get_anagramic_words fs (PyStr s)) as [tw|]; [|discriminate].
    cbn [bind] in H. unfold main_of_table_with in H.
    destruct (max_key tw) as [d|]; [|discriminate]. cbn [bind] in H.
    destruct (get_anagramic_squares_with _ _) as [ts|]; [|discriminate].
    cbn [bind] in H.
    destruct (pair_search tw ts) as [st|] eqn:E; [|discriminate]. cbn [bind] in H.
    apply (search_loop_past_guard tw (all_words tw) (squares_by_size_of ts)) in E.
    unfold recorded_past_guard in E. unfold report_with in H.
    destruct (snd st) as [[[a i] [b j]]|]; [|discriminate].
    destruct (isq i) as [x|]; [|discriminate]. cbn [bind] in H.
    destruct (isq j) as [y|]; [|discriminate]. cbn [bind] in H.
    inversion H; subst. destruct E as (s1 & _ & Hi & Hb). eauto.
Qed.

Lemma C5_accepted_mapping_is_bijection_witness :
  try_square (table_of ["CARE"; "RACE"])
             (squares_by_size_of (table_of (square_strings 4)))
             "CARE" (class_key "CARE") 4 (0%Z, None) "1296"
  = Ok (9216%Z, Some (("CARE", 1296%Z), ("RACE", 9216%Z))) /\
  true_bijection "CARE" "1296".
Proof.
  split; [vm_compute; reflexivity|].
  apply (proj1 C5_accepted_mapping_is_bijection
           (table_of ["CARE"; "RACE"])
           (squares_by_size_of (table_of (square_strings 4)))
           "CARE" (class_key "CARE") (0%Z, None) "1296").
  vm_compute. discriminate.
Defined.

(** ** C6: a word is never paired with itself *)

(** The pair held by the state, if any, is made of two different words. *)
Definition distinct_words (st : search_state) : Prop :=
  match snd st with
  | Some ((w1, _), (w2, _)) => w1 <> w2
  | None => True
  end.

Lemma try_partner_distinct sbs b w1 s1 st w2 st' :
  distinct_words st -> try_partner sbs b w1 s1 st w2 = Ok st' -> distinct_words st'.
Proof.
  intros Hd. unfold try_partner.
  destruct (String.eqb_spec w2 w1) as [E|N]; [intros H; inversion H; subst; auto|].
  destruct (translate b (chars w2)) as [ds|]; [|discriminate]. cbn [bind].
  destruct (dget Nat.eq_dec sbs _) as [sqs|]; [|discriminate].
  destruct (set_mem _ sqs); [|intros H; inversion H; subst; auto].
  destruct (int_ s1) as [i1|]; [|discriminate]. cbn [bind].
  destruct (int_ (join ds)) as [i2|]; [|discriminate]. cbn [bind].
  destruct (_ >? _)%Z; intros H; inversion H; subst; auto.
  unfold distinct_words. simpl. congruence.
Qed.

Lemma try_square_distinct tw sbs w1 ws n st s1 st' :
  distinct_words st -> try_square tw sbs w1 ws n st s1 = Ok st' -> distinct_words st'.
Proof.
  intros Hd. unfold try_square.
  destruct (_ || _)%bool; [intros H; inversion H; subst; auto|].
  apply for_each_preserves; auto.
  intros w2 s s' _. apply try_partner_distinct.
Qed.

Lemma try_word_distinct tw sbs st w1 st' :
  distinct_words st -> try_word tw sbs st w1 = Ok st' -> distinct_words st'.
Proof.
  intros Hd. unfold try_word. apply for_each_preserves; auto.
  intros s1 s s' _. apply try_square_distinct.
Qed.

Lemma pair_search_distinct tw ts st : pair_search tw ts = Ok st -> distinct_words st.
Proof.
  unfold pair_search. apply for_each_preserves; [|exact I].
  intros w1 s s' _. apply try_word_distinct.
Qed.

(** C6. Every update of the best pair (lines 189-191) records two
    words that differ as strings, so the state of the search never holds
    a word paired with itself, and the pair that [main] returns is made
    of two different words; this holds for arbitrary tables. *)
Theorem C6_word_never_paired_with_itself fs filename w1 r1 s1 w2 r2 s2 :
  main fs filename = Ok ((w1, r1, s1), (w2, r2, s2)) ->
  w1 <> w2 /\
  (forall tw ts st, pair_search tw ts = Ok st -> distinct_words st) /\
  (forall sbs b v1 t1 st v2 st',
     distinct_words st -> try_partner sbs b v1 t1 st v2 = Ok st' -> distinct_words st').
Proof.
  intros H. split; [|split].
  - unfold main in H. destruct filename; try discriminate.
    destruct (get_anagramic_words fs (PyStr s)) as [tw|]; [|discriminate].
    cbn [bind] in H. unfold main_of_table in H.
    destruct (max_key tw) as [d|]; [|discriminate]. cbn [bind] in H.
    destruct (get_anagramic_squares _) as [ts|]; [|discriminate]. cbn [bind] in H.
    destruct (pair_search tw ts) as [st|] eqn:E; [|discriminate]. cbn [bind] in H.
    apply pair_search_distinct in E. unfold distinct_words in E. unfold report in H.
    destruct (snd st) as [[[a i] [b j]]|]; [|discriminate].
    inversion H; subst. exact E.
  - intros tw ts st. apply pair_search_distinct.
  - intros sbs b v1 t1 st v2 st'. apply try_partner_distinct.
Qed.

Lemma C6_word_never_paired_with_itself_witness : "CARE" <> "RACE".
Proof.
  apply (C6_word_never_paired_with_itself
           (fun _ => Some (words_line ["CARE"; "RACE"])) (PyStr "words.txt")
           "CARE" 36%Z 1296%Z "RACE" 96%Z 9216%Z).
  vm_compute. reflexivity.
Defined.

(** ** C8: the best value does not depend on the order of iteration *)

Lemma candidate_order_free words sq tw tw' ts ts' c :
  anagram_table words tw -> anagram_table words tw' ->
  anagram_table sq ts -> anagram_table sq ts' ->
  candidate tw ts c -> candidate tw' ts' c.
Proof.
  intros Hw Hw' Hs Hs'. destruct c as [[[w1 s1] w2] s2].
  intros (H1 & H2 & N & Hs1 & Hb & Ht & Hs2).
  apply (class_of_member _ _ _ _ _ Hw) in H1, H2.
  apply (class_of_member _ _ _ _ _ Hw') in H1, H2.
  apply (in_table_member _ _ _ _ Hs) in Hs1, Hs2.
  apply (in_table_member _ _ _ _ Hs') in Hs1, Hs2.
  repeat split; auto.
Qed.

Lemma best_value_unique (P : cand -> Prop) st st' :
  best P st -> best P st' ->
  fst st = fst st' /\ (snd st = None <-> snd st' = None).
Proof.
  unfold best. destruct (snd st) as [p|], (snd st') as [p'|].
  - intros (c & Hc & _ & Hv & Hmax) (c' & Hc' & _ & Hv' & Hmax').
    split; [|split; discriminate].
    specialize (Hmax _ Hc'). specialize (Hmax' _ Hc). lia.
  - intros (c & Hc & _) [_ Hn]. destruct (Hn _ Hc).
  - intros [_ Hn] (c & Hc & _). destruct (Hn _ Hc).
  - intros [H0 _] [H0' _]. split; [congruence|tauto].
Qed.

(** A set in another order: the members whose first character has an
    even code first, then the others. *)
Definition even_head (s : string) : bool :=
  match s with
  | String c _ => Nat.even (nat_of_ascii c)
  | EmptyString => true
  end.

Definition evens_first (l : pyset) : pyset :=
  filter even_head l ++ filter (fun s => negb (even_head s)) l.

Lemma evens_first_In l s : In s (evens_first l) <-> In s l.
Proof.
  unfold evens_first. rewrite in_app_iff, !filter_In.
  destruct (even_head s); simpl; intuition discriminate.
Qed.

Lemma squares_of_size_map (f : pyset -> pyset) (sbs : dict nat pyset) n s :
  (forall l x, In x (f l) <-> In x l) ->
  (In s (squares_of_size (map (fun kv => (fst kv, f (snd kv))) sbs) n) <->
   In s (squares_of_size sbs n)).
Proof.
  intros Hf. unfold squares_of_size.
  rewrite (dget_map_values (fun kv : nat * pyset => f (snd kv))).
  destruct (dget Nat.eq_dec sbs n); simpl; [apply Hf|tauto].
Qed.

(** C8. Take the word table and the square table under any two
    iteration orders (any two tables holding the anagram classes of the
    same words, and any two holding the classes of the same squares,
    whatever the order of their lengths, of their classes and of the
    members of each class), the list of line 154 in any two orders, and
    the sets of line 160 in any two orders, class by class or not.  Both
    searches run to their end, and both end on the same best value: the
    largest square among the quadruples [(w1, s1, w2, s2)] that pass the
    tests of lines 176, 181 and 185, or 0 with no pair recorded when
    there is none.  Only the winning pair may differ. *)
Theorem C8_best_value_order_independent words b tw tw' ts ts' wl wl' sbs sbs' :
  anagram_table words tw -> anagram_table words tw' ->
  anagram_table (square_strings_upto b) ts ->
  anagram_table (square_strings_upto b) ts' ->
  (forall w, In w wl <-> In w (all_words tw)) ->
  (forall w, In w wl' <-> In w (all_words tw')) ->
  (forall n s, In s (squares_of_size sbs n) <->
               In s (squares_of_size (squares_by_size_of ts) n)) ->
  (forall n s, In s (squares_of_size sbs' n) <->
               In s (squares_of_size (squares_by_size_of ts') n)) ->
  exists st st',
    search_loop tw wl sbs = Ok st /\ search_loop tw' wl' sbs' = Ok st' /\
    fst st = fst st' /\ (snd st = None <-> snd st' = None) /\
    (forall w1 s1 w2 s2,
       candidate tw ts (w1, s1, w2, s2) ->
       (Z.max (ival s1) (ival s2) <= fst st)%Z) /\
    ((fst st = 0%Z /\ snd st = None /\
      forall w1 s1 w2 s2, ~ candidate tw ts (w1, s1, w2, s2)) \/
     (exists w1 s1 w2 s2,
        candidate tw ts (w1, s1, w2, s2) /\
        fst st = Z.max (ival s1) (ival s2) /\
        snd st = Some ((w1, ival s1), (w2, ival s2)))).
Proof.
  intros Hw Hw' Hs Hs' Hwl Hwl' Hsbs Hsbs'.
  pose proof (anagram_table_keyed _ _ Hw) as Kw.
  pose proof (anagram_table_keyed _ _ Hw') as Kw'.
  pose proof (squares_upto_square_table _ _ Hs) as Ks.
  pose proof (squares_upto_square_table _ _ Hs') as Ks'.
  destruct (search_loop_spec tw ts wl sbs Kw Ks) as (st & E & Hb).
  { intros w. rewrite Hwl. apply all_words_In, Kw. }
  { intros n s. rewrite Hsbs. apply squares_of_size_In, Ks. }
  destruct (search_loop_spec tw' ts' wl' sbs' Kw' Ks') as (st' & E' & Hb').
  { intros w. rewrite Hwl'. apply all_words_In, Kw'. }
  { intros n s. rewrite Hsbs'. apply squares_of_size_In, Ks'. }
  exists st, st'. split; auto. split; auto.
  assert (Hb2 : best (candidate tw ts) st').
  { eapply best_ext; [|exact Hb'].
    intros c. split; eapply candidate_order_free; eauto. }
  destruct (best_value_unique _ _ _ Hb Hb2) as [V N].
  split; auto. split; auto.
  unfold best in Hb. destruct (snd st) as [p|].
  - destruct Hb as ([[[w1 s1] w2] s2] & Hc & Hp & Hv & Hmax). split.
    + intros v1 t1 v2 t2 Hc'. rewrite Hv. apply (Hmax (v1, t1, v2, t2) Hc').
    + right. exists w1, s1, w2, s2. split; auto. split; auto. rewrite Hp. reflexivity.
  - destruct Hb as [H0 Hn]. split.
    + intros v1 t1 v2 t2 Hc'. destruct (Hn _ Hc').
    + left. split; [exact H0|]. split; [reflexivity|]. intros w1 s1 w2 s2. apply Hn.
Qed.

Lemma C8_best_value_order_independent_witness :
  table_of ["CARE"; "RACE"; "EAT"; "TEA"] <> table_of ["TEA"; "EAT"; "RACE"; "CARE"] /\
  table_of (square_strings_upto 99) <> table_of (List.rev (square_strings_upto 99)) /\
  map (fun kv => (fst kv, evens_first (snd kv)))
      (squares_by_size_of (table_of (List.rev (square_strings_upto 99))))
  <> squares_by_size_of (table_of (List.rev (square_strings_upto 99))) /\
  exists st st',
    search_loop (table_of ["CARE"; "RACE"; "EAT"; "TEA"])
                (all_words (table_of ["CARE"; "RACE"; "EAT"; "TEA"]))
                (squares_by_size_of (table_of (square_strings_upto 99))) = Ok st /\
    search_loop (table_of ["TEA"; "EAT"; "RACE"; "CARE"])
                (List.rev (all_words (table_of ["TEA"; "EAT"; "RACE"; "CARE"])))
                (map (fun kv => (fst kv, evens_first (snd kv)))
                     (squares_by_size_of (table_of (List.rev (square_strings_upto 99)))))
    = Ok st' /\
    fst st = fst st' /\ (snd st = None <-> snd st' = None) /\
    fst st = 9216%Z.
Proof.
  split; [vm_compute; discriminate|]. split; [vm_compute; discriminate|].
  split; [vm_compute; discriminate|].
  destruct (C8_best_value_order_independent
              ["CARE"; "RACE"; "EAT"; "TEA"] 99
              (table_of ["CARE"; "RACE"; "EAT"; "TEA"])
              (table_of ["TEA"; "EAT"; "RACE"; "CARE"])
              (table_of (square_strings_upto 99))
              (table_of (List.rev (square_strings_upto 99)))
              (all_words (table_of ["CARE"; "RACE"; "EAT"; "TEA"]))
              (List.rev (all_words (table_of ["TEA"; "EAT"; "RACE"; "CARE"])))
              (squares_by_size_of (table_of (square_strings_upto 99)))
              (map (fun kv => (fst kv, evens_first (snd kv)))
                   (squares_by_size_of (table_of (List.rev (square_strings_upto 99))))))
    as (st & st' & E & E' & V & N & _).
  - apply table_of_spec.
  - apply (anagram_table_same_words ["TEA"; "EAT"; "RACE"; "CARE"]);
      [|apply table_of_spec].
    intros w; simpl; tauto.
  - apply table_of_spec.
  - apply (anagram_table_same_words (List.rev (square_strings_upto 99)));
      [|apply table_of_spec].
    intros w. symmetry. apply in_rev.
  - intros w. tauto.
  - intros w. symmetry. apply in_rev.
  - intros n s. tauto.
  - intros n s. apply squares_of_size_map. exact evens_first_In.
  - exists st, st'. split; auto. split; auto. split; auto. split; auto.
    vm_compute in E. inversion E. reflexivity.
Defined.

(** ** C9: words with a repeated letter *)

Lemma zip_full_keys_distinct ks vs :
  (List.length ks <= List.length (dict_of_zip ks vs))%nat -> NoDup ks.
Proof.
  intros H. pose proof (dict_of_zip_length_le ks vs) as L.
  destruct (dict_of_pairs_full ascii_dec [] (combine ks vs)) as (_ & _ & N).
  { unfold dict_of_pairs. fold (dict_of_zip ks vs).
    rewrite length_combine. simpl. lia. }
  rewrite map_fst_combine in N; auto. lia.
Qed.

(** What [main] returns comes from a candidate of the search on the
    tables of the parsed words, and no candidate has a larger value. *)
Lemma main_returns_candidate fs name w1 r1 i1 w2 r2 i2 :
  main fs (PyStr name) = Ok ((w1, r1, i1), (w2, r2, i2)) ->
  exists line tw d ts s1 s2,
    fs name = Some line /\
    anagram_table (parse_words line) tw /\
    anagram_table (square_strings d) ts /\
    candidate tw ts (w1, s1, w2, s2) /\
    i1 = ival s1 /\ i2 = ival s2 /\ r1 = Z.sqrt i1 /\ r2 = Z.sqrt i2 /\
    forall c, candidate tw ts c -> (cand_value c <= Z.max i1 i2)%Z.
Proof.
  intros H. destruct (fs name) as [line|] eqn:Hf.
  2:{ unfold main, get_anagramic_words in H. rewrite Hf in H. discriminate. }
  rewrite (main_of_words _ _ _ Hf) in H.
  destruct (main_words_run (parse_words line)) as (tw & _ & Htw & [[_ E]|Hrun]).
  { rewrite E in H. discriminate. }
  destruct Hrun as (d & ts & st & _ & _ & _ & _ & Hts & _ & Hb & E).
  rewrite E in H. unfold best in Hb. unfold report in H.
  destruct (snd st) as [[[a i] [b j]]|]; [|discriminate].
  inversion H; subst.
  destruct Hb as ([[[v1 s1] v2] s2] & Hc & Hp & _ & Hmax).
  simpl in Hp. inversion Hp; subst.
  exists line, tw, (Z.of_nat d), ts, s1, s2.
  split; [reflexivity|]. do 3 (split; [assumption|]).
  do 4 (split; [reflexivity|]). exact Hmax.
Qed.

(** C9. A word [w] with a repeated letter is rejected with every
    candidate square: the dictionary built by zipping it against any
    string has fewer entries than [w] has letters, so the guard of line
    176 skips the candidate; and [w] is never a member, first or second,
    of the pair that [main] returns, even when a substitution sends it
    and an anagram of it onto squares (as E -> 4, L -> 1 sends EEL and
    LEE onto 441 and 144). *)
Theorem C9_repeated_letter_never_paired w :
  ~ NoDup (chars w) ->
  (forall s1,
     (List.length (dict_of_zip (chars w) (chars s1)) < String.length w)%nat /\
     is_bijection w s1 = false) /\
  (forall fs name p1 p2,
     main fs (PyStr name) = Ok (p1, p2) ->
     fst (fst p1) <> w /\ fst (fst p2) <> w).
Proof.
  intros Hrep. split.
  - intros s1.
    assert (L : (List.length (dict_of_zip (chars w) (chars s1)) < String.length w)%nat).
    { destruct (Nat.lt_ge_cases (List.length (dict_of_zip (chars w) (chars s1)))
                                (String.length w)) as [H|H]; auto.
      exfalso. apply Hrep. apply (zip_full_keys_distinct _ (chars s1)).
      rewrite length_chars. exact H. }
    split; auto. unfold is_bijection. apply Nat.ltb_lt in L. rewrite L. reflexivity.
  - intros fs name [[w1 r1] i1] [[w2 r2] i2] H. simpl.
    destruct (main_returns_candidate _ _ _ _ _ _ _ _ H)
      as (line & tw & d & ts & s1 & s2 & _ & Htw & _ & Hc & _).
    destruct Hc as (_ & H2 & _ & _ & Hbij & _).
    destruct (is_bijection_spec _ _ Hbij) as (_ & _ & _ & _ & _ & N1 & _).
    apply (class_of_member _ _ _ _ _ Htw) in H2. destruct H2 as (_ & K2 & _).
    split; intros <-; apply Hrep; auto.
    apply (Permutation_NoDup (same_key_perm _ _ (eq_sym K2))). exact N1.
Qed.

Lemma C9_repeated_letter_never_paired_witness :
  (List.length (dict_of_zip (chars "EEL") (chars "441")) < 3)%nat /\
  is_bijection "EEL" "441" = false.
Proof.
  apply (C9_repeated_letter_never_paired "EEL").
  intros H. inversion H as [|c l Hn _]. apply Hn. left. reflexivity.
Defined.

(** ** C10: no missing key in the search *)




(** ** C1: the largest square over all pairs *)

(** C1, at the word list EEL, LEE.  The two words are a square anagram
    word pair: they are anagrams, and the substitution E -> 4, L -> 1,
    which gives different digits to different letters and no leading
    zero, sends them onto 441 = 21^2 and 144 = 12^2.  The claim has
    [main] return a square of at least 441 together with a valid pair;
    the guard of line 176 rejects every candidate of a word with a
    repeated letter, the search records nothing, and line 195 raises. *)
Theorem C1_pair_with_repeated_letter_missed :
  square_anagram_pair ["EEL"; "LEE"] "EEL" "441" "LEE" "144" /\
  parse_words (words_line ["EEL"; "LEE"]) = ["EEL"; "LEE"] /\
  main (fun _ => Some (words_line ["EEL"; "LEE"])) (PyStr "words.txt")
  = Raise TypeError.
Proof.
  split; [|split; reflexivity].
  unfold square_anagram_pair. repeat split; simpl; auto; try discriminate.
  - exists 21%Z. split; [lia|reflexivity].
  - exists 12%Z. split; [lia|reflexivity].
  - exists (fun c => if Ascii.eqb c "E" then "4"%char else "1"%char).
    repeat split.
    intros c c' [<-|[<-|[<-|[]]]] [<-|[<-|[<-|[]]]]; simpl; congruence.
Qed.

(** ** C2: no pair at all *)

Definition no_anagram_fs : file_system :=
  fun _ => Some (words_line ["AB"; "CD"]).

(** C2 as stated fails on the words AB, CD: no two of them share a
    sorted form, the word table is empty, and [main] ends on the
    [ValueError] of [max] over the empty table (line 157), not on the
    missing value of line 195. *)
Lemma C2_empty_table_raises_ValueError :
  get_anagramic_words no_anagram_fs (PyStr "words.txt") = Ok [] /\
  main no_anagram_fs (PyStr "words.txt") = Raise ValueError /\
  main no_anagram_fs (PyStr "words.txt") <> Raise TypeError.
Proof.
  split; [reflexivity|]. split; [reflexivity|]. vm_compute. discriminate.
Qed.

Lemma anagram_table_nonempty l t :
  anagram_table l t -> t <> [] ->
  exists w w', In w l /\ In w' l /\ w <> w' /\ class_key w = class_key w'.
Proof.
  intros H Hne. pose proof H as (Hshape & Hcls & _).
  destruct t as [|[n inner] t]; [congruence|].
  destruct Hshape as [Hnd Hinner].
  destruct (Hinner n inner (or_introl eq_refl)) as [Hndi Hi].
  destruct inner as [|[k cls] inner]; [congruence|].
  assert (Ht : tget ((n, (k, cls) :: inner) :: t) n k = Some cls).
  { apply tget_In; [split; auto|]. exists ((k, cls) :: inner). simpl; auto. }
  destruct (Hcls _ _ _ Ht) as (_ & Hndc & H2 & Hm).
  destruct cls as [|a [|b cls]]; simpl in H2; try lia.
  exists a, b.
  destruct (proj1 (Hm a) (or_introl eq_refl)) as [La Ka].
  destruct (proj1 (Hm b) (or_intror (or_introl eq_refl))) as [Lb Kb].
  repeat split; auto; [|congruence].
  intros ->. inversion Hndc as [|? ? Ha _]. apply Ha. left. reflexivity.
Qed.

Lemma two_digit_square x :
  (0 < x)%Z -> String.length (str_ (x ^ 2)) = 2%nat -> (4 <= x <= 9)%Z.
Proof.
  intros Hx L.
  pose proof (str_length_bound (x ^ 2)) as B.
  pose proof (str_length_lower (x ^ 2)) as Lo.
  rewrite L in B, Lo.
  change (10 ^ Z.of_nat 2)%Z with 100%Z in B.
  change (10 ^ (Z.of_nat 2 - 1))%Z with 10%Z in Lo.
  nia.
Qed.

(** AB and BA are anagrams, but no substitution sends both onto
    squares: no square of two digits read backwards is a square. *)
Lemma no_pair_AB_BA w1 s1 w2 s2 :
  ~ square_anagram_pair ["AB"; "BA"] w1 s1 w2 s2.
Proof.
  intros (H1 & H2 & N & _ & (x & Hx & E1) & (y & Hy & E2) & f & _ & F1 & F2).
  assert (Hxy : (4 <= x <= 9)%Z /\ (4 <= y <= 9)%Z).
  { split; apply two_digit_square; auto.
    - rewrite <- E1, <- length_chars, F1, length_map.
      destruct H1 as [<-|[<-|[]]]; reflexivity.
    - rewrite <- E2, <- length_chars, F2, length_map.
      destruct H2 as [<-|[<-|[]]]; reflexivity. }
  subst s1 s2.
  assert (R : exists a b, chars (str_ (x ^ 2)) = [a; b] /\ chars (str_ (y ^ 2)) = [b; a]).
  { destruct H1 as [<-|[<-|[]]], H2 as [<-|[<-|[]]]; try congruence;
      simpl in F1, F2; eauto. }
  destruct R as (a & b & Rx & Ry). destruct Hxy as [Bx By].
  assert (Cx : (x = 4 \/ x = 5 \/ x = 6 \/ x = 7 \/ x = 8 \/ x = 9)%Z) by lia.
  assert (Cy : (y = 4 \/ y = 5 \/ y = 6 \/ y = 7 \/ y = 8 \/ y = 9)%Z) by lia.
  destruct Cx as [->|[->|[->|[->|[->| ->]]]]];
    destruct Cy as [->|[->|[->|[->|[->| ->]]]]];
    vm_compute in Rx, Ry; congruence.
Qed.

(** C2, amended.  When the word list holds no square anagram word pair,
    [main] fails, whatever the floats give, and in one of three ways.
    On an empty word table (as when no two words share a sorted form):
    with the [ValueError] that [max] raises at line 157, before the
    search.  On a non-empty one, [d] being its largest length: with the
    exception that [floor(10**(d/2))] raises at line 105, if it raises
    one (Python: [OverflowError], from [d = 617] on); otherwise with the
    [TypeError] of unpacking the never-set [p_best] at line 195. *)
Theorem C2_failure_without_pair flo isq fs name line :
  fs name = Some line ->
  (forall w1 s1 w2 s2, ~ square_anagram_pair (parse_words line) w1 s1 w2 s2) ->
  exists tw,
    get_anagramic_words fs (PyStr name) = Ok tw /\
    ((forall w w', In w (parse_words line) -> In w' (parse_words line) ->
                   class_key w = class_key w' -> w = w') -> tw = []) /\
    (tw = [] -> main_with flo isq fs (PyStr name) = Raise ValueError) /\
    (tw <> [] ->
     exists d, max_key tw = Ok d /\ (0 < d)%nat /\
       match flo (Z.of_nat d) with
       | Raise e => main_with flo isq fs (PyStr name) = Raise e
       | Ok _ => main_with flo isq fs (PyStr name) = Raise TypeError
       end).
Proof.
  intros Hf Hno. rewrite (main_with_of_words _ _ _ _ _ Hf).
  unfold get_anagramic_words. rewrite Hf.
  destruct (main_words_with_run flo isq (parse_words line)) as (tw & Hg & Htw & Hrun).
  exists tw. split; auto. split; [|split].
  - intros Hsingle. destruct tw as [|e tw]; auto. exfalso.
    destruct (anagram_table_nonempty _ _ Htw) as (w & w' & Hw & Hw' & N & K);
      [discriminate|]. apply N. apply Hsingle; auto.
  - intros ->. destruct Hrun as [[_ E]|(d & Hne & _)]; congruence.
  - intros Hne. destruct Hrun as [[E _]|(d & _ & Hm & Hd & Hrun)]; [congruence|].
    exists d. split; auto. split; auto.
    destruct Hrun as [(e & -> & E)|(b & ts & st & -> & Hts & _ & Hb & E)];
      [exact E|].
    rewrite E. unfold best in Hb. destruct (snd st) as [p|]; [|reflexivity].
    exfalso. destruct Hb as ([[[w1 s1] w2] s2] & Hc & _).
    apply (Hno w1 s1 w2 s2). eapply candidate_sound_upto; eauto.
Qed.

Lemma C2_failure_without_pair_witness :
  main_with exact_floor_pow10_half exact_int_sqrt no_anagram_fs (PyStr "words.txt")
  = Raise ValueError /\
  main_with exact_floor_pow10_half exact_int_sqrt
            (fun _ => Some (words_line ["AB"; "BA"])) (PyStr "words.txt")
  = Raise TypeError /\
  main_with (fun _ => Raise OverflowError) exact_int_sqrt
            (fun _ => Some (words_line ["AB"; "BA"])) (PyStr "words.txt")
  = Raise OverflowError.
Proof.
  split; [|split].
  - destruct (C2_failure_without_pair exact_floor_pow10_half exact_int_sqrt
                no_anagram_fs "words.txt" (words_line ["AB"; "CD"]))
      as (tw & Hg & _ & H & _).
    + reflexivity.
    + intros w1 s1 w2 s2 (H1 & H2 & N & K & _).
      vm_compute in H1, H2.
      destruct H1 as [<-|[<-|[]]], H2 as [<-|[<-|[]]];
        try congruence; vm_compute in K; discriminate.
    + apply H. vm_compute in Hg. inversion Hg. reflexivity.
  - destruct (C2_failure_without_pair exact_floor_pow10_half exact_int_sqrt
                (fun _ => Some (words_line ["AB"; "BA"])) "words.txt"
                (words_line ["AB"; "BA"]))
      as (tw & Hg & _ & _ & H).
    + reflexivity.
    + exact no_pair_AB_BA.
    + destruct H as (d & _ & _ & H).
      * vm_compute in Hg. intros ->. discriminate.
      * exact H.
  - destruct (C2_failure_without_pair (fun _ => Raise OverflowError) exact_int_sqrt
                (fun _ => Some (words_line ["AB"; "BA"])) "words.txt"
                (words_line ["AB"; "BA"]))
      as (tw & Hg & _ & _ & H).
    + reflexivity.
    + exact no_pair_AB_BA.
    + destruct H as (d & _ & _ & H).
      * vm_compute in Hg. intros ->. discriminate.
      * exact H.
Defined.

(** ** C3: the squares that are enumerated *)

(** C3 as stated fails at [d_max = 2]: the loop of line 105 runs [x]
    from 1 to [floor(10**(2/2)) = 10] and so inserts [str(10**2)], which
    has three digits, one more than the two that the claim allows.  (It
    is purged with the singletons: the table returned is empty.) *)
Lemma C3_d_max_2_inserts_three_digits :
  exact_floor_pow10_half 2 = Ok 10%Z /\
  square_strings_upto 10
  = ["1"; "4"; "9"; "16"; "25"; "36"; "49"; "64"; "81"; "100"] /\
  In (str_ (10 ^ 2)) (square_strings_upto 10) /\
  (2 < String.length (str_ (10 ^ 2)))%nat /\
  get_anagramic_squares_with exact_floor_pow10_half (PyInt 2) = Ok [].
Proof.
  split; [reflexivity|]. split; [reflexivity|].
  split; [vm_compute; tauto|]. split; [vm_compute; lia|reflexivity].
Qed.

Lemma pow10_length d :
  (0 <= d)%Z -> Z.of_nat (String.length (str_ (10 ^ d))) = (d + 1)%Z.
Proof.
  intros Hd.
  assert (P : (0 < 10 ^ d)%Z) by (apply Z.pow_pos_nonneg; lia).
  assert (B : (10 ^ d < 10 ^ Z.of_nat (String.length (str_ (10 ^ d))))%Z)
    by (apply str_length_bound; lia).
  pose proof (str_length_lower (10 ^ d) P) as L.
  set (n := Z.of_nat (String.length (str_ (10 ^ d)))) in *.
  assert (Hn : (0 <= n)%Z) by (unfold n; lia).
  apply Z.pow_lt_mono_r_iff in B; [|lia|lia].
  destruct (Z_le_gt_dec n (d + 1)) as [H1|H1]; [lia|exfalso].
  assert (H2 : (10 ^ (d + 1) <= 10 ^ (n - 1))%Z) by (apply Z.pow_le_mono_r; lia).
  replace (d + 1)%Z with (Z.succ d) in H2 by lia.
  rewrite Z.pow_succ_r in H2 by lia. lia.
Qed.

(** With the exact bound, no string of more than [d] digits remains in
    the table: the one that is inserted has no partner. *)
Lemma exact_table_lengths d t n s :
  (0 < d)%Z -> anagram_table (square_strings d) t ->
  in_table t n s -> (Z.of_nat n <= d)%Z.
Proof.
  intros Hd Ht Hin. apply (in_table_member _ _ _ _ Ht) in Hin.
  destruct Hin as (k & Hs & Hk & Hn & s' & Hs' & Ne & Hk').
  apply square_strings_In in Hs, Hs'.
  destruct Hs as (x & Hx & ->). destruct Hs' as (x' & Hx' & ->).
  assert (Len : String.length (str_ (x' ^ 2)) = String.length (str_ (x ^ 2))).
  { apply same_key_length. congruence. }
  destruct (enumerated_square_length d x) as [L|E]; try lia.
  destruct (enumerated_square_length d x') as [L'|E']; try lia.
  exfalso. apply Ne. congruence.
Qed.

(** C3, amended.  For a positive [d_max]: if [floor(10**(d_max/2))]
    raises, so does the Square Grouper; if it gives [b], the loop of
    line 105 inserts exactly the decimal forms of [x^2] for [x] from 1
    to [b], in that order.  When [b] is the exact value of the
    expression, the integer square root of [10^d_max] (which Python's
    floats give for [d_max <= 32]): every square of a positive integer
    with at most [d_max] digits is inserted; every inserted string has
    at most [d_max] digits, but for [10^d_max] itself, which is inserted
    when [d_max] is even and has [d_max + 1] digits; and every string of
    the table returned has at most [d_max] digits. *)
Theorem C3_enumerated_squares flo d_max :
  (0 < d_max)%Z ->
  match flo d_max with
  | Raise e => get_anagramic_squares_with flo (PyInt d_max) = Raise e
  | Ok b =>
      get_anagramic_squares_with flo (PyInt d_max)
      = group_strings (map (fun x => str_ (x ^ 2)) (py_range 1 (b + 1))) /\
      (forall s, In s (square_strings_upto b) <->
                 exists x, (1 <= x <= b)%Z /\ s = str_ (x ^ 2)) /\
      (b = root_bound d_max ->
       (forall x, (0 < x)%Z ->
          (Z.of_nat (String.length (str_ (x ^ 2))) <= d_max)%Z ->
          In (str_ (x ^ 2)) (square_strings_upto b)) /\
       (forall x, (1 <= x <= b)%Z ->
          (Z.of_nat (String.length (str_ (x ^ 2))) <= d_max)%Z \/
          ((x ^ 2 = 10 ^ d_max)%Z /\
           Z.of_nat (String.length (str_ (x ^ 2))) = (d_max + 1)%Z)) /\
       (forall k, (d_max = 2 * k)%Z ->
          In (str_ (10 ^ d_max)) (square_strings_upto b)) /\
       (exists t, get_anagramic_squares_with flo (PyInt d_max) = Ok t /\
          forall n s, in_table t n s -> (Z.of_nat n <= d_max)%Z))
  end.
Proof.
  intros Hd. pose proof (get_anagramic_squares_with_run flo d_max Hd) as Hrun.
  destruct (flo d_max) as [b|e] eqn:Hflo; [|exact Hrun].
  split; [|split].
  - unfold get_anagramic_squares_with. rewrite Hflo.
    destruct (Z.gtb_spec d_max 0); [reflexivity|lia].
  - intros s. apply square_strings_upto_In.
  - intros ->. split; [|split; [|split]].
    + intros x Hx Hl. apply short_square_enumerated; assumption.
    + intros x Hx.
      destruct (enumerated_square_length d_max x) as [L|E]; [lia|exact Hx|auto|].
      right. split; [exact E|]. rewrite E. apply pow10_length. lia.
    + intros k Hk. apply square_strings_In. exists (10 ^ k)%Z.
      assert (P : ((10 ^ k) ^ 2 = 10 ^ d_max)%Z).
      { rewrite <- Z.pow_mul_r by lia. f_equal. lia. }
      assert (0 < 10 ^ k)%Z by (apply Z.pow_pos_nonneg; lia).
      split; [|rewrite P; reflexivity].
      unfold root_bound. rewrite <- P, Z.pow_2_r, Z.sqrt_square; lia.
    + destruct Hrun as (t & Hg & Ht). exists t. split; auto.
      intros n s. apply exact_table_lengths; assumption.
Qed.

Lemma C3_enumerated_squares_witness :
  get_anagramic_squares_with exact_floor_pow10_half (PyInt 4)
  = group_strings (map (fun x => str_ (x ^ 2)) (py_range 1 (100 + 1)))%Z /\
  In (str_ (10 ^ 4)) (square_strings_upto 100) /\
  (exists t, get_anagramic_squares_with exact_floor_pow10_half (PyInt 4) = Ok t /\
     forall n s, in_table t n s -> (Z.of_nat n <= 4)%Z).
Proof.
  destruct (C3_enumerated_squares exact_floor_pow10_half 4 eq_refl)
    as (H1 & _ & H3).
  destruct (H3 eq_refl) as (_ & _ & H4 & H5).
  split; [exact H1|]. split; [exact (H4 2%Z eq_refl)|exact H5].
Defined.

(** * Further properties of the code *)

(** ** The class key (lines 60, 107 and 166) *)

Definition ascii_le (a b : ascii) : Prop := (nat_of_ascii a <= nat_of_ascii b)%nat.

Lemma insert_sorted_Sorted a l :
  Sorted ascii_le l -> Sorted ascii_le (insert_sorted a l).
Proof.
  induction 1 as [|b l Hl IH Hb]; simpl.
  - repeat constructor.
  - unfold ascii_leb. destruct (Nat.leb_spec (nat_of_ascii a) (nat_of_ascii b)).
    + constructor; [constructor; auto|constructor; exact H].
    + constructor; auto. destruct Hb as [|c l' Hc]; simpl.
      * constructor. unfold ascii_le. lia.
      * unfold ascii_leb.
        destruct (Nat.leb_spec (nat_of_ascii a) (nat_of_ascii c));
          constructor; unfold ascii_le; auto; lia.
Qed.

Lemma sorted_Sorted l : Sorted ascii_le (sorted l).
Proof.
  induction l as [|a l IH]; simpl; [constructor|].
  apply insert_sorted_Sorted, IH.
Qed.

(** X1. The class key of a string is the rearrangement of its
    characters in ascending order of code point, and two strings have
    the same key exactly when one is a rearrangement of the other, that
    is, when they are anagrams. *)
Theorem class_key_identifies_anagrams w w' :
  Sorted ascii_le (chars (class_key w)) /\
  Permutation (chars (class_key w)) (chars w) /\
  (class_key w = class_key w' <-> Permutation (chars w) (chars w')).
Proof.
  split; [|split].
  - unfold class_key. rewrite chars_join. apply sorted_Sorted.
  - apply class_key_perm.
  - split; [apply same_key_perm|apply perm_same_key].
Qed.

(** ** The guard of line 176, both ways *)

Lemma dict_of_zip_nodup ks vs :
  NoDup (firstn (List.length vs) ks) ->
  List.length (dict_of_zip ks vs) = Nat.min (List.length ks) (List.length vs).
Proof.
  intros H. unfold dict_of_zip.
  pose proof (dict_of_pairs_nodup ascii_dec [] (combine ks vs)) as E.
  unfold dict_of_pairs in E. simpl in E. rewrite E.
  - apply length_combine.
  - rewrite map_fst_combine_firstn. exact H.
Qed.

(** X2. A candidate [s1] gets past the guard for [w1] exactly when
    [s1] is at least as long as [w1], the letters of [w1] are pairwise
    distinct, and so are the digits of [s1] that face them. *)
Theorem guard_passes_iff w1 s1 :
  is_bijection w1 s1 = true <->
  (String.length w1 <= String.length s1)%nat /\
  NoDup (chars w1) /\
  NoDup (firstn (String.length w1) (chars s1)).
Proof.
  split.
  - intros H. destruct (is_bijection_spec _ _ H) as (L & _ & _ & _ & _ & N1 & N2).
    auto.
  - intros (L & N1 & N2). unfold is_bijection.
    rewrite !dict_of_zip_nodup.
    + rewrite !length_chars.
      replace (Nat.min (String.length w1) (String.length s1)) with (String.length w1) by lia.
      replace (Nat.min (String.length s1) (String.length w1)) with (String.length w1) by lia.
      rewrite Nat.ltb_irrefl. reflexivity.
    + rewrite length_chars. exact N2.
    + rewrite firstn_all2; [exact N1|]. rewrite !length_chars. exact L.
Qed.

(** ** What the two groupers return *)

(** X3. Given a readable file, the Word Grouper returns (the pops of
    lines 76 and 78 never miss their key), and its table, with distinct
    keys at both levels, files a word under a length and a key exactly
    when the word is in the list, has that length and that sorted form,
    and another word of the list has the same sorted form. *)
Theorem word_grouper_content fs name line :
  fs name = Some line ->
  exists t,
    get_anagramic_words fs (PyStr name) = Ok t /\
    table_shape t /\
    forall n k w,
      (exists cls, tget t n k = Some cls /\ In w cls) <->
      (In w (parse_words line) /\ class_key w = k /\ n = String.length w /\
       exists w', In w' (parse_words line) /\ w' <> w /\ class_key w' = k).
Proof.
  intros H. unfold get_anagramic_words. rewrite H.
  destruct (group_strings_spec (parse_words line)) as (t & Hg & Ht).
  exists t. split; auto. split; [apply Ht|].
  intros n k w. apply (anagram_table_member _ _ n k w Ht).
Qed.

Lemma word_grouper_content_witness :
  exists t,
    get_anagramic_words (fun _ => Some (words_line ["CARE"; "EEL"; "RACE"]))
                        (PyStr "words.txt") = Ok t /\
    table_shape t /\
    forall n k w,
      (exists cls, tget t n k = Some cls /\ In w cls) <->
      (In w (parse_words (words_line ["CARE"; "EEL"; "RACE"])) /\
       class_key w = k /\ n = String.length w /\
       exists w', In w' (parse_words (words_line ["CARE"; "EEL"; "RACE"])) /\
                  w' <> w /\ class_key w' = k).
Proof.
  apply (word_grouper_content (fun _ => Some (words_line ["CARE"; "EEL"; "RACE"]))
           "words.txt" (words_line ["CARE"; "EEL"; "RACE"])).
  reflexivity.
Defined.

(** X4. The grouping does not depend on the order of the strings nor
    on how often each one comes: two lists with the same elements give
    tables with the same classes and the same members. *)
Theorem grouping_ignores_order_and_repeats l l' :
  (forall w, In w l <-> In w l') ->
  exists t t',
    group_strings l = Ok t /\ group_strings l' = Ok t' /\
    forall n k w,
      (exists cls, tget t n k = Some cls /\ In w cls) <->
      (exists cls, tget t' n k = Some cls /\ In w cls).
Proof.
  intros E.
  destruct (group_strings_spec l) as (t & Hg & Ht).
  destruct (group_strings_spec l') as (t' & Hg' & Ht').
  exists t, t'. split; auto. split; auto. intros n k w.
  rewrite (anagram_table_member _ _ n k w Ht).
  apply (anagram_table_same_words l' l) in Ht'; [|intros x; symmetry; apply E].
  rewrite (anagram_table_member _ _ n k w Ht'). reflexivity.
Qed.

Lemma grouping_ignores_order_and_repeats_witness :
  exists t t',
    group_strings ["CARE"; "RACE"; "CARE"; "ACRE"] = Ok t /\
    group_strings ["ACRE"; "RACE"; "CARE"] = Ok t' /\
    forall n k w,
      (exists cls, tget t n k = Some cls /\ In w cls) <->
      (exists cls, tget t' n k = Some cls /\ In w cls).
Proof.
  apply (grouping_ignores_order_and_repeats
           ["CARE"; "RACE"; "CARE"; "ACRE"] ["ACRE"; "RACE"; "CARE"]).
  intros w. simpl. tauto.
Defined.

(** X5. For a positive [d_max], if [floor(10**(d_max/2))] raises, so
    does the Square Grouper; if it gives [b], the Square Grouper
    returns, and its table files a string under a length and a key
    exactly when the string is the decimal form of the square of some
    [x] from 1 to [b], has that length and that sorted form, and the
    square of another integer from 1 to [b] has the same sorted form.
    When [b] is the exact value of the expression, the integer square
    root of [10^d_max] (which Python's floats give for [d_max <= 32]),
    these are the squares of positive integers that have at most [d_max]
    digits and share their sorted form with another square: the one
    longer square that the loop may insert never remains. *)
Theorem square_grouper_content flo d_max :
  (0 < d_max)%Z ->
  match flo d_max with
  | Raise e => get_anagramic_squares_with flo (PyInt d_max) = Raise e
  | Ok b =>
      exists t,
        get_anagramic_squares_with flo (PyInt d_max) = Ok t /\
        (forall n k s,
           (exists cls, tget t n k = Some cls /\ In s cls) <->
           (n = String.length s /\ k = class_key s /\
            exists x x', (1 <= x <= b)%Z /\ (1 <= x' <= b)%Z /\ s = str_ (x ^ 2) /\
                         x' <> x /\ class_key (str_ (x' ^ 2)) = k)) /\
        (b = root_bound d_max ->
         forall n k s,
           (exists cls, tget t n k = Some cls /\ In s cls) <->
           (n = String.length s /\ k = class_key s /\ (Z.of_nat n <= d_max)%Z /\
            exists x x', (0 < x)%Z /\ (0 < x')%Z /\ s = str_ (x ^ 2) /\
                         x' <> x /\ class_key (str_ (x' ^ 2)) = k))
  end.
Proof.
  intros Hd. pose proof (get_anagramic_squares_with_run flo d_max Hd) as Hrun.
  destruct (flo d_max) as [b|e]; [|exact Hrun].
  destruct Hrun as (t & Hg & Ht). exists t. split; auto. split.
  - intros n k s.
    rewrite (anagram_table_member _ _ n k s Ht). unfold member. split.
    + intros (Hs & Hk & Hn & s' & Hs' & Ne & Hk').
      apply square_strings_upto_In in Hs, Hs'.
      destruct Hs as (x & Hx & ->). destruct Hs' as (x' & Hx' & ->).
      split; auto. split; auto.
      exists x, x'. repeat split; try lia; auto. intros ->. apply Ne. reflexivity.
    + intros (Hn & Hk & x & x' & Hx & Hx' & -> & Ne & Hk').
      split; [apply square_strings_upto_In; eauto|].
      split; auto. split; auto.
      exists (str_ (x' ^ 2)). split; [apply square_strings_upto_In; eauto|].
      split; auto. intros E. apply str_inj in E. apply Ne. nia.
  - intros -> n k s.
    rewrite (anagram_table_member _ _ n k s Ht). unfold member. split.
    + intros (Hs & Hk & Hn & s' & Hs' & Ne & Hk').
      apply square_strings_In in Hs, Hs'.
      destruct Hs as (x & Hx & ->). destruct Hs' as (x' & Hx' & ->).
      split; auto. split; auto.
      assert (Len : String.length (str_ (x' ^ 2)) = String.length (str_ (x ^ 2))).
      { apply same_key_length. congruence. }
      split.
      * destruct (enumerated_square_length d_max x) as [L|E]; try lia.
        destruct (enumerated_square_length d_max x') as [L'|E']; try lia.
        exfalso. apply Ne. congruence.
      * exists x, x'. repeat split; try lia; auto. intros ->. apply Ne. reflexivity.
    + intros (Hn & Hk & Hle & x & x' & Hx & Hx' & -> & Ne & Hk').
      assert (Len : String.length (str_ (x' ^ 2)) = String.length (str_ (x ^ 2))).
      { apply same_key_length. congruence. }
      split; [apply short_square_enumerated; auto; lia|].
      split; auto. split; auto.
      exists (str_ (x' ^ 2)). split; [|split; auto].
      * apply short_square_enumerated; auto. rewrite Len. lia.
      * intros E. apply str_inj in E. apply Ne. nia.
Qed.

Lemma square_grouper_content_witness :
  exists t,
    get_anagramic_squares_with exact_floor_pow10_half (PyInt 4) = Ok t /\
    (forall n k s,
       (exists cls, tget t n k = Some cls /\ In s cls) <->
       (n = String.length s /\ k = class_key s /\
        exists x x', (1 <= x <= root_bound 4)%Z /\ (1 <= x' <= root_bound 4)%Z /\
                     s = str_ (x ^ 2) /\
                     x' <> x /\ class_key (str_ (x' ^ 2)) = k)) /\
    (root_bound 4 = root_bound 4 ->
     forall n k s,
       (exists cls, tget t n k = Some cls /\ In s cls) <->
       (n = String.length s /\ k = class_key s /\ (Z.of_nat n <= 4)%Z /\
        exists x x', (0 < x)%Z /\ (0 < x')%Z /\ s = str_ (x ^ 2) /\
                     x' <> x /\ class_key (str_ (x' ^ 2)) = k)).
Proof.
  apply (square_grouper_content exact_floor_pow10_half 4). reflexivity.
Defined.

(** ** What [main] returns and how it fails *)

Lemma class_length_le_max words tw d w :
  anagram_table words tw -> max_key tw = Ok d ->
  In w (class_of tw (String.length w) (class_key w)) ->
  (String.length w <= d)%nat.
Proof.
  intros Htw Hm Hcls.
  destruct (max_key_spec _ _ Htw) as [[-> _]|(d' & Hm' & _ & _ & Hmax)];
    [destruct Hcls|].
  assert (d' = d) by congruence. subst d'. apply Hmax.
  unfold class_of, tget in Hcls.
  destruct (dget Nat.eq_dec tw (String.length w)) as [inner|] eqn:Eg;
    [|destruct Hcls].
  apply dget_In in Eg. unfold dkeys. apply in_map_iff.
  exists (String.length w, inner). auto.
Qed.

(** A square anagram word pair whose first word has pairwise distinct
    letters makes [main] report a candidate of at least its value. *)
Lemma main_words_finds words w1 s1 w2 s2 :
  square_anagram_pair words w1 s1 w2 s2 -> NoDup (chars w1) ->
  exists tw d ts c,
    anagram_table words tw /\ anagram_table (square_strings d) ts /\
    candidate tw ts c /\
    main_words words = report (Some (cand_pair c)) /\
    (cand_value (w1, s1, w2, s2) <= cand_value c)%Z.
Proof.
  intros Hpair Nd.
  destruct (main_words_run words) as (tw & _ & Htw & Hrun).
  assert (Hcls : In w1 (class_of tw (String.length w1) (class_key w1))).
  { destruct Hpair as (H1 & H2 & N & K & _).
    apply (class_of_member _ _ _ _ _ Htw). repeat split; auto.
    exists w2. repeat split; auto. }
  destruct Hrun as [[-> _]|(d & ts & st & _ & Hm & _ & _ & Hts & _ & Hb & E)];
    [destruct Hcls|].
  pose proof (class_length_le_max _ _ _ _ Htw Hm Hcls) as Hd.
  assert (Hc : candidate tw ts (w1, s1, w2, s2)).
  { eapply candidate_complete; eauto. lia. }
  unfold best in Hb. destruct (snd st) as [p|] eqn:Es.
  2:{ destruct Hb as [_ Hn]. destruct (Hn _ Hc). }
  destruct Hb as (c & Hc' & -> & _ & Hmax).
  exists tw, (Z.of_nat d), ts, c. do 3 (split; [assumption|]).
  split; [exact E|]. apply Hmax, Hc.
Qed.

Lemma report_candidate words d tw ts c :
  anagram_table words tw -> anagram_table (square_strings d) ts ->
  candidate tw ts c ->
  exists v1 r1 v2 r2,
    report (Some (cand_pair c)) = Ok ((v1, r1, r1 ^ 2), (v2, r2, r2 ^ 2))%Z /\
    (0 < r1)%Z /\ (0 < r2)%Z /\ cand_value c = Z.max (r1 ^ 2) (r2 ^ 2) /\
    square_anagram_pair words v1 (str_ (r1 ^ 2)) v2 (str_ (r2 ^ 2)) /\
    NoDup (chars v1) /\ NoDup (chars v2).
Proof.
  intros Htw Hts Hc. destruct c as [[[v1 t1] v2] t2].
  pose proof (candidate_sound _ _ _ _ _ _ _ _ Htw Hts Hc) as Hs.
  pose proof Hs as (_ & _ & _ & K & Q1 & Q2 & _).
  destruct (square_string_value _ Q1) as (x1 & P1 & E1 & V1 & R1).
  destruct (square_string_value _ Q2) as (x2 & P2 & E2 & V2 & R2).
  destruct Hc as (_ & _ & _ & _ & Hbij & _).
  destruct (is_bijection_spec _ _ Hbij) as (_ & _ & _ & _ & _ & N1 & _).
  exists v1, x1, v2, x2. unfold report, cand_pair, cand_value.
  rewrite R1, R2, V1, V2.
  split; [reflexivity|]. split; auto. split; auto. split; auto.
  split; [rewrite <- E1, <- E2; exact Hs|]. split; auto.
  apply (Permutation_NoDup (same_key_perm _ _ K)). exact N1.
Qed.

(** X6. What [main] returns is a square anagram word pair of the words
    of the file: two different words of the list that are anagrams, and
    one substitution, injective on their letters, that sends them onto
    the decimal forms of the two squares returned; each square is the
    square of the positive root returned with it, and no letter is
    repeated in either word. *)
Theorem main_returns_valid_pair fs name w1 r1 i1 w2 r2 i2 :
  main fs (PyStr name) = Ok ((w1, r1, i1), (w2, r2, i2)) ->
  exists line,
    fs name = Some line /\
    square_anagram_pair (parse_words line) w1 (str_ i1) w2 (str_ i2) /\
    i1 = (r1 ^ 2)%Z /\ i2 = (r2 ^ 2)%Z /\ (0 < r1)%Z /\ (0 < r2)%Z /\
    NoDup (chars w1) /\ NoDup (chars w2).
Proof.
  intros H.
  destruct (main_returns_candidate _ _ _ _ _ _ _ _ H)
    as (line & tw & d & ts & s1 & s2 & Hf & Htw & Hts & Hc & -> & -> & -> & -> & _).
  exists line. split; auto. clear H.
  destruct (report_candidate _ _ _ _ _ Htw Hts Hc)
    as (v1 & x1 & v2 & x2 & E & P1 & P2 & _ & Hs & N1 & N2).
  unfold report, cand_pair in E.
  assert (E1 : ival s1 = (x1 ^ 2)%Z) by congruence.
  assert (E2 : ival s2 = (x2 ^ 2)%Z) by congruence.
  assert (R1 : Z.sqrt (ival s1) = x1) by congruence.
  assert (R2 : Z.sqrt (ival s2) = x2) by congruence.
  assert (V1 : v1 = w1) by congruence. assert (V2 : v2 = w2) by congruence.
  subst v1 v2. rewrite R1, R2, E1, E2.
  split; [exact Hs|]. repeat split; auto.
Qed.

Lemma main_returns_valid_pair_witness :
  exists line,
    (fun _ : string => Some (words_line ["CARE"; "RACE"])) "words.txt" = Some line /\
    square_anagram_pair (parse_words line) "CARE" (str_ 1296) "RACE" (str_ 9216) /\
    1296%Z = (36 ^ 2)%Z /\ 9216%Z = (96 ^ 2)%Z /\ (0 < 36)%Z /\ (0 < 96)%Z /\
    NoDup (chars "CARE") /\ NoDup (chars "RACE").
Proof.
  apply (main_returns_valid_pair (fun _ => Some (words_line ["CARE"; "RACE"]))
           "words.txt" "CARE" 36%Z 1296%Z "RACE" 96%Z 9216%Z).
  vm_compute. reflexivity.
Defined.

Lemma care_race_pair :
  square_anagram_pair (parse_words (words_line ["CARE"; "RACE"]))
                      "CARE" "1296" "RACE" "9216".
Proof.
  unfold square_anagram_pair.
  split; [vm_compute; auto|]. split; [vm_compute; auto|].
  split; [discriminate|]. split; [reflexivity|].
  split; [exists 36%Z; split; [lia|reflexivity]|].
  split; [exists 96%Z; split; [lia|reflexivity]|].
  exists (subst (combine (chars "CARE") (chars "1296"))).
  split; [|split; reflexivity].
  intros c c' Hc Hc'. simpl in Hc, Hc'.
  destruct Hc as [<-|[<-|[<-|[<-|[]]]]], Hc' as [<-|[<-|[<-|[<-|[]]]]];
    vm_compute; congruence.
Qed.

(** *** With the float expressions as parameters *)

(** The squares of a candidate, as integers. *)
Lemma candidate_squares words b tw ts c :
  anagram_table words tw -> anagram_table (square_strings_upto b) ts ->
  candidate tw ts c ->
  exists v1 r1 v2 r2,
    cand_pair c = ((v1, r1 ^ 2), (v2, r2 ^ 2))%Z /\
    (0 < r1)%Z /\ (0 < r2)%Z /\ cand_value c = Z.max (r1 ^ 2) (r2 ^ 2) /\
    square_anagram_pair words v1 (str_ (r1 ^ 2)) v2 (str_ (r2 ^ 2)) /\
    NoDup (chars v1) /\ NoDup (chars v2).
Proof.
  intros Htw Hts Hc. destruct c as [[[v1 t1] v2] t2].
  pose proof (candidate_sound_upto _ _ _ _ _ _ _ _ Htw Hts Hc) as Hs.
  pose proof Hs as (_ & _ & _ & K & Q1 & Q2 & _).
  destruct (square_string_value _ Q1) as (x1 & P1 & E1 & V1 & R1).
  destruct (square_string_value _ Q2) as (x2 & P2 & E2 & V2 & R2).
  destruct Hc as (_ & _ & _ & _ & Hbij & _).
  destruct (is_bijection_spec _ _ Hbij) as (_ & _ & _ & _ & _ & N1 & _).
  exists v1, x1, v2, x2. unfold cand_pair, cand_value. rewrite V1, V2.
  split; [reflexivity|]. split; auto. split; auto. split; auto.
  split; [rewrite <- E1, <- E2; exact Hs|]. split; auto.
  apply (Permutation_NoDup (same_key_perm _ _ K)). exact N1.
Qed.

(** A square anagram word pair whose first word has pairwise distinct
    letters: either line 105 raises, or, when the bound it computes
    covers the squares of the length of the word, [main_with] reports a
    candidate of at least the value of the pair. *)
Lemma main_words_with_finds flo isq words w1 s1 w2 s2 :
  square_anagram_pair words w1 s1 w2 s2 -> NoDup (chars w1) ->
  exists tw d,
    group_strings words = Ok tw /\ anagram_table words tw /\
    max_key tw = Ok d /\ (String.length w1 <= d)%nat /\
    match flo (Z.of_nat d) with
    | Raise e => main_words_with flo isq words = Raise e
    | Ok b =>
        (Z.sqrt (10 ^ Z.of_nat (String.length w1) - 1) <= b)%Z ->
        exists ts c,
          anagram_table (square_strings_upto b) ts /\ candidate tw ts c /\
          main_words_with flo isq words = report_with isq (Some (cand_pair c)) /\
          (cand_value (w1, s1, w2, s2) <= cand_value c)%Z
    end.
Proof.
  intros Hpair Nd.
  destruct (main_words_with_run flo isq words) as (tw & Hg & Htw & Hrun).
  assert (Hcls : In w1 (class_of tw (String.length w1) (class_key w1))).
  { destruct Hpair as (H1 & H2 & N & K & _).
    apply (class_of_member _ _ _ _ _ Htw). repeat split; auto.
    exists w2. repeat split; auto. }
  destruct Hrun as [[-> _]|(d & _ & Hm & _ & Hrun)]; [destruct Hcls|].
  pose proof (class_length_le_max _ _ _ _ Htw Hm Hcls) as Hd.
  exists tw, d. do 4 (split; [assumption|]).
  destruct Hrun as [(e & -> & E)|(b & ts & st & -> & Hts & _ & Hb & E)]; [exact E|].
  intros Hbound.
  assert (Hc : candidate tw ts (w1, s1, w2, s2)).
  { eapply candidate_complete_upto; eauto. }
  unfold best in Hb. destruct (snd st) as [p|] eqn:Es.
  2:{ destruct Hb as [_ Hn]. destruct (Hn _ Hc). }
  destruct Hb as (c & Hc' & -> & _ & Hmax).
  exists ts, c. do 2 (split; [assumption|]).
  split; [exact E|]. apply Hmax, Hc.
Qed.

(** What [main_with] returns comes from a candidate of the search, the
    roots being those that line 196 computed, and no candidate has a
    larger value. *)
Lemma main_with_returns_candidate flo isq fs name w1 r1 i1 w2 r2 i2 :
  main_with flo isq fs (PyStr name) = Ok ((w1, r1, i1), (w2, r2, i2)) ->
  exists line tw d b ts s1 s2,
    fs name = Some line /\
    anagram_table (parse_words line) tw /\
    max_key tw = Ok d /\ flo (Z.of_nat d) = Ok b /\
    anagram_table (square_strings_upto b) ts /\
    candidate tw ts (w1, s1, w2, s2) /\
    i1 = ival s1 /\ i2 = ival s2 /\ isq i1 = Ok r1 /\ isq i2 = Ok r2 /\
    forall c, candidate tw ts c -> (cand_value c <= Z.max i1 i2)%Z.
Proof.
  intros H. destruct (fs name) as [line|] eqn:Hf.
  2:{ unfold main_with, get_anagramic_words in H. rewrite Hf in H. discriminate. }
  rewrite (main_with_of_words _ _ _ _ _ Hf) in H.
  destruct (main_words_with_run flo isq (parse_words line))
    as (tw & _ & Htw & [[_ E]|(d & _ & Hm & _ & Hrun)]).
  { rewrite E in H. discriminate. }
  destruct Hrun as [(e & _ & E)|(b & ts & st & Hb0 & Hts & _ & Hb & E)].
  { rewrite E in H. discriminate. }
  rewrite E in H. unfold best in Hb. unfold report_with in H.
  destruct (snd st) as [[[a i] [c j]]|]; [|discriminate].
  destruct (isq i) as [x|] eqn:Ei; [|discriminate]. cbn [bind] in H.
  destruct (isq j) as [y|] eqn:Ej; [|discriminate]. cbn [bind] in H.
  inversion H; subst.
  destruct Hb as ([[[v1 s1] v2] s2] & Hc & Hp & _ & Hmax).
  simpl in Hp. inversion Hp; subst.
  exists line, tw, d, b, ts, s1, s2.
  split; [reflexivity|]. do 5 (split; [assumption|]).
  do 2 (split; [reflexivity|]). do 2 (split; [assumption|]). exact Hmax.
Qed.

(** X7. On a word list with a square anagram word pair whose first
    word has pairwise distinct letters, the word table is not empty and
    its largest length [d] is at least that of the word.  If
    [floor(10**(d/2))] raises (as Python does, with [OverflowError], from
    [d = 617] on), so does [main].  If it gives [b], and [b] is at least
    the root of the largest square with as many digits as the word has
    letters (the exact value of the expression, which Python gives for
    [d <= 32], always is), then the search ends on a square anagram word
    pair of the list whose larger square is at least the larger square
    of the given pair, and [main] returns that pair with the roots that
    line 196 computes, or raises what line 196 raises. *)
Theorem main_returns_largest_square flo isq fs name line w1 s1 w2 s2 :
  fs name = Some line ->
  square_anagram_pair (parse_words line) w1 s1 w2 s2 -> NoDup (chars w1) ->
  exists tw d,
    get_anagramic_words fs (PyStr name) = Ok tw /\ max_key tw = Ok d /\
    (String.length w1 <= d)%nat /\
    (Z.sqrt (10 ^ Z.of_nat (String.length w1) - 1) <= root_bound (Z.of_nat d))%Z /\
    match flo (Z.of_nat d) with
    | Raise e => main_with flo isq fs (PyStr name) = Raise e
    | Ok b =>
        (Z.sqrt (10 ^ Z.of_nat (String.length w1) - 1) <= b)%Z ->
        exists v1 r1 v2 r2,
          main_with flo isq fs (PyStr name)
          = report_with isq (Some ((v1, r1 ^ 2), (v2, r2 ^ 2)))%Z /\
          (0 < r1)%Z /\ (0 < r2)%Z /\
          square_anagram_pair (parse_words line) v1 (str_ (r1 ^ 2)) v2 (str_ (r2 ^ 2)) /\
          (Z.max (ival s1) (ival s2) <= Z.max (r1 ^ 2) (r2 ^ 2))%Z
    end.
Proof.
  intros Hf Hpair Nd. rewrite (main_with_of_words _ _ _ _ _ Hf).
  destruct (main_words_with_finds flo isq _ _ _ _ _ Hpair Nd)
    as (tw & d & Hg & Htw & Hm & Hd & Hrun).
  exists tw, d. unfold get_anagramic_words. rewrite Hf.
  do 3 (split; [assumption|]). split.
  { unfold root_bound. apply Z.sqrt_le_mono.
    assert (10 ^ Z.of_nat (String.length w1) <= 10 ^ Z.of_nat d)%Z
      by (apply Z.pow_le_mono_r; lia).
    lia. }
  destruct (flo (Z.of_nat d)) as [b|e]; [|exact Hrun].
  intros Hbound. destruct (Hrun Hbound) as (ts & c & Hts & Hc & E & Hle).
  destruct (candidate_squares _ _ _ _ _ Htw Hts Hc)
    as (v1 & r1 & v2 & r2 & Ep & P1 & P2 & Ev & Hs & _).
  exists v1, r1, v2, r2. rewrite E, Ep.
  split; [reflexivity|]. do 3 (split; [assumption|]).
  rewrite <- Ev. exact Hle.
Qed.

Lemma main_returns_largest_square_witness :
  exists v1 r1 v2 r2,
    main_with exact_floor_pow10_half exact_int_sqrt
              (fun _ => Some (words_line ["CARE"; "RACE"])) (PyStr "words.txt")
    = Ok ((v1, r1, r1 ^ 2), (v2, r2, r2 ^ 2))%Z /\
    (0 < r1)%Z /\ (0 < r2)%Z /\
    square_anagram_pair (parse_words (words_line ["CARE"; "RACE"]))
                        v1 (str_ (r1 ^ 2)) v2 (str_ (r2 ^ 2)) /\
    (Z.max (ival "1296") (ival "9216") <= Z.max (r1 ^ 2) (r2 ^ 2))%Z.
Proof.
  destruct (main_returns_largest_square exact_floor_pow10_half exact_int_sqrt
              (fun _ => Some (words_line ["CARE"; "RACE"])) "words.txt"
              (words_line ["CARE"; "RACE"]) "CARE" "1296" "RACE" "9216")
    as (tw & d & _ & _ & _ & Hb & H).
  - reflexivity.
  - exact care_race_pair.
  - repeat constructor; simpl; intuition discriminate.
  - destruct (H Hb) as (v1 & r1 & v2 & r2 & E & P1 & P2 & Hs & Hle).
    exists v1, r1, v2, r2. split; [|auto].
    rewrite E. unfold report_with, exact_int_sqrt. cbn [bind].
    rewrite !Z.pow_2_r, !Z.sqrt_square by lia. reflexivity.
Defined.


(** X9. [main] is monotone in the word list, as far as the floats
    allow.  When it returns a pair on one file, then on any file whose
    words include those of the first the word table is not empty, and
    with [d'] its largest length: if [floor(10**(d'/2))] raises, [main]
    raises the same; if it gives a bound that covers the squares of the
    length of the returned words (the exact value always does), the
    search ends on a pair whose larger square is at least the larger
    square of the pair returned on the first file, and [main] hands that
    pair to line 196. *)
Theorem main_monotone flo isq fs name line fs' name' line' w1 r1 i1 w2 r2 i2 :
  fs name = Some line -> fs' name' = Some line' ->
  incl (parse_words line) (parse_words line') ->
  main_with flo isq fs (PyStr name) = Ok ((w1, r1, i1), (w2, r2, i2)) ->
  exists tw' d',
    get_anagramic_words fs' (PyStr name') = Ok tw' /\ max_key tw' = Ok d' /\
    (String.length w1 <= d')%nat /\
    (Z.sqrt (10 ^ Z.of_nat (String.length w1) - 1) <= root_bound (Z.of_nat d'))%Z /\
    match flo (Z.of_nat d') with
    | Raise e => main_with flo isq fs' (PyStr name') = Raise e
    | Ok b' =>
        (Z.sqrt (10 ^ Z.of_nat (String.length w1) - 1) <= b')%Z ->
        exists v1 j1 v2 j2,
          main_with flo isq fs' (PyStr name')
          = report_with isq (Some ((v1, j1), (v2, j2))) /\
          (Z.max i1 i2 <= Z.max j1 j2)%Z
    end.
Proof.
  intros Hf Hf' Hincl H.
  destruct (main_with_returns_candidate _ _ _ _ _ _ _ _ _ _ H)
    as (l0 & tw & d & b & ts & s1 & s2 & Hf0 & Htw & _ & _ & Hts & Hc & -> & -> & _).
  assert (l0 = line) by congruence. subst l0.
  pose proof (candidate_sound_upto _ _ _ _ _ _ _ _ Htw Hts Hc) as Hs.
  destruct Hc as (_ & _ & _ & _ & Hbij & _).
  destruct (is_bijection_spec _ _ Hbij) as (_ & _ & _ & _ & _ & N1 & _).
  assert (Hs' : square_anagram_pair (parse_words line') w1 s1 w2 s2).
  { destruct Hs as (H1 & H2 & Hrest). split; [apply Hincl, H1|].
    split; [apply Hincl, H2|exact Hrest]. }
  destruct (main_words_with_finds flo isq _ _ _ _ _ Hs' N1)
    as (tw' & d' & Hg' & Htw' & Hm' & Hd' & Hrun).
  exists tw', d'. unfold get_anagramic_words at 1. rewrite Hf'.
  do 3 (split; [assumption|]). split.
  { unfold root_bound. apply Z.sqrt_le_mono.
    assert (10 ^ Z.of_nat (String.length w1) <= 10 ^ Z.of_nat d')%Z
      by (apply Z.pow_le_mono_r; lia).
    lia. }
  rewrite (main_with_of_words _ _ _ _ _ Hf').
  destruct (flo (Z.of_nat d')) as [b'|e]; [|exact Hrun].
  intros Hbound. destruct (Hrun Hbound) as (ts' & [[[v1 t1] v2] t2] & _ & _ & E & Hle).
  exists v1, (ival t1), v2, (ival t2). split; [exact E|exact Hle].
Qed.

Lemma main_monotone_witness :
  exists v1 j1 v2 j2,
    main_with exact_floor_pow10_half exact_int_sqrt
              (fun _ => Some (words_line ["RACE"; "BOARD"; "CARE"; "BROAD"]))
              (PyStr "more.txt")
    = report_with exact_int_sqrt (Some ((v1, j1), (v2, j2))) /\
    (Z.max 1296 9216 <= Z.max j1 j2)%Z.
Proof.
  destruct (main_monotone exact_floor_pow10_half exact_int_sqrt
              (fun _ => Some (words_line ["CARE"; "RACE"])) "words.txt"
              (words_line ["CARE"; "RACE"])
              (fun _ => Some (words_line ["RACE"; "BOARD"; "CARE"; "BROAD"])) "more.txt"
              (words_line ["RACE"; "BOARD"; "CARE"; "BROAD"])
              "CARE" 36%Z 1296%Z "RACE" 96%Z 9216%Z)
    as (tw' & d' & _ & _ & _ & Hb & H).
  - reflexivity.
  - reflexivity.
  - intros w Hw. vm_compute in Hw. vm_compute. tauto.
  - vm_compute. reflexivity.
  - exact (H Hb).
Defined.

(** ** Reading the words (line 52) *)

Lemma chars_app (a b : string) : chars (a ++ b)%string = chars a ++ chars b.
Proof.
  unfold chars. induction a as [|c a IH]; simpl; [reflexivity|].
  rewrite IH. reflexivity.
Qed.

Lemma split_on_length sep l cur :
  List.length (split_on sep l cur) = S (count_occ ascii_dec l sep).
Proof.
  revert cur; induction l as [|c l IH]; intros cur; simpl; [reflexivity|].
  destruct (Ascii.eqb_spec c sep) as [->|N].
  - destruct (ascii_dec sep sep) as [_|N]; [|congruence]. simpl. rewrite IH. reflexivity.
  - destruct (ascii_dec c sep) as [E|_]; [congruence|]. apply IH.
Qed.

Lemma split_on_no_sep sep l cur tok :
  ~ In sep cur -> In tok (split_on sep l cur) -> ~ In sep (chars tok).
Proof.
  revert cur; induction l as [|c l IH]; intros cur Hcur; simpl.
  - intros [<-|[]]. rewrite chars_join. rewrite <- in_rev. exact Hcur.
  - destruct (Ascii.eqb_spec c sep) as [->|N].
    + intros [<-|H].
      * rewrite chars_join. rewrite <- in_rev. exact Hcur.
      * apply (IH []); auto.
    + apply IH. intros [E|H]; auto.
Qed.

Lemma split_on_whole sep l cur :
  ~ In sep l -> split_on sep l cur = [join (List.rev cur ++ l)].
Proof.
  revert cur; induction l as [|c l IH]; intros cur H; simpl.
  - rewrite app_nil_r. reflexivity.
  - destruct (Ascii.eqb_spec c sep) as [->|N]; [exfalso; apply H; left; reflexivity|].
    rewrite IH; [|intros Hin; apply H; right; exact Hin].
    simpl. rewrite <- app_assoc. reflexivity.
Qed.

Lemma split_on_app sep l1 l2 cur :
  ~ In sep l1 ->
  split_on sep (l1 ++ sep :: l2) cur = join (List.rev cur ++ l1) :: split_on sep l2 [].
Proof.
  revert cur; induction l1 as [|c l1 IH]; intros cur H; simpl.
  - rewrite Ascii.eqb_refl, app_nil_r. reflexivity.
  - destruct (Ascii.eqb_spec c sep) as [->|N]; [exfalso; apply H; left; reflexivity|].
    rewrite IH; [|intros Hin; apply H; right; exact Hin].
    simpl. rewrite <- app_assoc. reflexivity.
Qed.

Lemma lstrip_In p l c : In c (lstrip p l) -> In c l.
Proof.
  induction l as [|a l IH]; simpl; auto.
  destruct (p a); simpl; auto.
Qed.

Lemma strip_by_In p s c : In c (chars (strip_by p s)) -> In c (chars s).
Proof.
  unfold strip_by. rewrite chars_join. intros H.
  apply in_rev, lstrip_In in H. apply in_rev, lstrip_In in H. exact H.
Qed.

Definition is_lower (c : ascii) : Prop :=
  (97 <= nat_of_ascii c <= 122)%nat.

Lemma upper_char_spec c :
  ~ is_lower (upper_char c) /\
  (upper_char c = c \/ (65 <= nat_of_ascii (upper_char c) <= 90)%nat).
Proof.
  unfold upper_char, is_lower.
  destruct ((97 <=? nat_of_ascii c)%nat && (nat_of_ascii c <=? 122)%nat)%bool eqn:E.
  - apply andb_true_iff in E. destruct E as [E1 E2].
    apply Nat.leb_le in E1, E2.
    rewrite nat_ascii_embedding by lia. split; [lia|right; lia].
  - apply andb_false_iff in E. split; [|left; reflexivity].
    destruct E as [E|E]; apply Nat.leb_gt in E; lia.
Qed.

(** X10. The line always parses into at least one token, one more
    than the commas of the stripped line (an empty file gives the one
    empty word); no token holds a comma, and none holds a lower-case
    ASCII letter. *)
Theorem parse_words_tokens line :
  List.length (parse_words line) =
  S (count_occ ascii_dec (chars (strip_by is_space line)) ","%char) /\
  parse_words line <> [] /\
  forall tok c, In tok (parse_words line) -> In c (chars tok) ->
    c <> ","%char /\ ~ is_lower c.
Proof.
  unfold parse_words. split; [|split].
  - rewrite length_map. apply split_on_length.
  - intros E. apply (f_equal (@List.length string)) in E.
    rewrite length_map, split_on_length in E. discriminate.
  - intros tok c Htok Hc. apply in_map_iff in Htok. destruct Htok as (raw & <- & Hraw).
    unfold upper in Hc. rewrite chars_join in Hc. apply in_map_iff in Hc.
    destruct Hc as (c0 & <- & Hc0). apply strip_by_In in Hc0.
    assert (N : c0 <> ","%char).
    { intros ->. revert Hc0. eapply split_on_no_sep; [|exact Hraw]. intros []. }
    destruct (upper_char_spec c0) as [L [E|R]]; split; auto.
    + rewrite E. exact N.
    + intros E. rewrite E in R. vm_compute in R. lia.
Qed.

(** A word as [words.txt] holds them: ASCII characters only, no comma,
    no double quote, no lower-case letter. *)
Definition clean_word (w : string) : Prop :=
  forall c, In c (chars w) ->
    (nat_of_ascii c < 128)%nat /\
    c <> ","%char /\ c <> dquote /\ ~ is_lower c.

Lemma lstrip_head p l :
  match l with [] => True | c :: _ => p c = false end -> lstrip p l = l.
Proof. destruct l as [|c l]; simpl; auto. intros ->. reflexivity. Qed.

Lemma lstrip_prefix p l1 l2 :
  (forall c, In c l1 -> p c = true) -> lstrip p (l1 ++ l2) = lstrip p l2.
Proof.
  induction l1 as [|c l1 IH]; simpl; intros H; auto.
  rewrite (H c (or_introl eq_refl)). apply IH. auto.
Qed.

Lemma chars_quoted w : chars (quoted w) = dquote :: chars w ++ [dquote].
Proof. unfold quoted. simpl. f_equal. apply chars_app. Qed.

Lemma strip_quoted w :
  (forall c, In c (chars w) -> c <> dquote) ->
  strip_by (Ascii.eqb dquote) (quoted w) = w.
Proof.
  intros H. unfold strip_by. rewrite chars_quoted.
  assert (P : forall c, In c (chars w) -> Ascii.eqb dquote c = false).
  { intros c Hc. apply Ascii.eqb_neq. intros E. apply (H c Hc). auto. }
  cbn [lstrip]. rewrite Ascii.eqb_refl.
  destruct (chars w) as [|c l] eqn:E.
  - cbn [app lstrip]. rewrite ?Ascii.eqb_refl. cbn [lstrip List.rev app].
    rewrite <- (join_chars w), E. reflexivity.
  - rewrite (lstrip_head _ ((c :: l) ++ [dquote])); [|simpl; apply P; left; reflexivity].
    rewrite rev_app_distr. change (List.rev [dquote]) with [dquote].
    set (R := List.rev (c :: l)).
    rewrite lstrip_prefix; [|intros a [<-|[]]; apply Ascii.eqb_refl].
    rewrite lstrip_head.
    + unfold R. rewrite rev_involutive, <- E. apply join_chars.
    + destruct R as [|a r] eqn:Er; auto.
      apply P. apply in_rev. fold R. rewrite Er. left. reflexivity.
Qed.

Lemma upper_clean w : (forall c, In c (chars w) -> ~ is_lower c) -> upper w = w.
Proof.
  intros H. unfold upper. rewrite <- (join_chars w) at 2. f_equal.
  rewrite <- (map_id (chars w)) at 2. apply map_ext_in. intros c Hc.
  specialize (H c Hc). unfold upper_char, is_lower in *.
  destruct ((97 <=? nat_of_ascii c)%nat && (nat_of_ascii c <=? 122)%nat)%bool eqn:E;
    auto.
  apply andb_true_iff in E. destruct E as [E1 E2]. apply Nat.leb_le in E1, E2. lia.
Qed.

Lemma split_words_line ws :
  ws <> [] -> (forall w, In w ws -> ~ In ","%char (chars w)) ->
  split_on ","%char (chars (words_line ws)) [] = map quoted ws.
Proof.
  assert (Q : forall w, ~ In ","%char (chars w) -> ~ In ","%char (chars (quoted w))).
  { intros w H. rewrite chars_quoted. simpl. rewrite in_app_iff. simpl.
    intros [E|[Hin|[E|[]]]]; auto; discriminate. }
  unfold words_line. induction ws as [|w ws IH]; [congruence|]. intros _ H.
  destruct ws as [|w' ws].
  - change (String.concat "," (map quoted [w])) with (quoted w).
    rewrite split_on_whole; [|apply Q, H; left; reflexivity].
    change (List.rev (@nil ascii)) with (@nil ascii).
    rewrite app_nil_l, join_chars. reflexivity.
  - change (String.concat "," (map quoted (w :: w' :: ws)))
      with (quoted w ++ "," ++ String.concat "," (map quoted (w' :: ws)))%string.
    rewrite chars_app. change (chars ("," ++ ?s)%string) with (","%char :: chars s).
    rewrite split_on_app; [|apply Q, H; left; reflexivity].
    change (List.rev (@nil ascii)) with (@nil ascii).
    rewrite app_nil_l, join_chars.
    rewrite IH; [reflexivity|discriminate|].
    intros x Hx. apply H. right. exact Hx.
Qed.

Lemma words_line_ends ws :
  ws <> [] ->
  (exists M, chars (words_line ws) = dquote :: M) /\
  (exists M, chars (words_line ws) = M ++ [dquote]).
Proof.
  unfold words_line. induction ws as [|w ws IH]; [congruence|]. intros _.
  destruct ws as [|w' ws].
  - change (String.concat "," (map quoted [w])) with (quoted w).
    rewrite chars_quoted. split; eauto.
    exists (dquote :: chars w). reflexivity.
  - change (String.concat "," (map quoted (w :: w' :: ws)))
      with (quoted w ++ "," ++ String.concat "," (map quoted (w' :: ws)))%string.
    rewrite chars_app, chars_quoted. split; [simpl; eauto|].
    destruct IH as [_ (M & E)]; [discriminate|].
    change (chars ("," ++ ?s)%string) with (","%char :: chars s).
    rewrite E. exists ((dquote :: chars w ++ [dquote]) ++ ","%char :: M).
    rewrite <- app_assoc. reflexivity.
Qed.

Lemma strip_line s tail :
  (exists M, chars s = dquote :: M) -> (exists M, chars s = M ++ [dquote]) ->
  (forall c, In c (chars tail) -> is_space c = true) ->
  strip_by is_space (s ++ tail) = s.
Proof.
  intros (M & E1) (M' & E2) Ht. unfold strip_by. rewrite chars_app.
  rewrite (lstrip_head _ (chars s ++ chars tail)); [|rewrite E1; reflexivity].
  rewrite rev_app_distr, lstrip_prefix; [|intros c Hc; apply Ht, in_rev, Hc].
  rewrite lstrip_head; [rewrite rev_involutive; apply join_chars|].
  rewrite E2, rev_app_distr. reflexivity.
Qed.

(** X11. A line of words between double quotes and separated by
    commas, followed by any ASCII white space (the end of the line),
    parses back into these words, provided there is at least one word
    and every word is made of ASCII characters (codes below 128) other
    than the comma, the double quote and the lower-case letters. *)
Theorem parse_words_of_line ws tail :
  ws <> [] -> (forall w, In w ws -> clean_word w) ->
  (forall c, In c (chars tail) -> is_space c = true) ->
  parse_words (words_line ws ++ tail) = ws.
Proof.
  intros Hne Hclean Htail. unfold parse_words.
  destruct (words_line_ends ws Hne) as [B E].
  rewrite (strip_line _ _ B E Htail), split_words_line; auto.
  - rewrite map_map. rewrite <- (map_id ws) at 2. apply map_ext_in.
    intros w Hw. rewrite strip_quoted.
    + apply upper_clean. intros c Hc. apply (Hclean w Hw c Hc).
    + intros c Hc. apply (Hclean w Hw c Hc).
  - intros w Hw Hin. destruct (Hclean w Hw _ Hin) as (_ & N & _). congruence.
Qed.

Lemma parse_words_of_line_witness :
  parse_words (words_line ["CARE"; "RACE"; "A"] ++ String (ascii_of_nat 10) EmptyString)
  = ["CARE"; "RACE"; "A"].
Proof.
  apply (parse_words_of_line ["CARE"; "RACE"; "A"] (String (ascii_of_nat 10) EmptyString)).
  - discriminate.
  - intros w [<-|[<-|[<-|[]]]] c Hc; simpl in Hc;
      repeat (destruct Hc as [<-|Hc]; [vm_compute; repeat split; try discriminate; lia|]);
      destruct Hc.
  - intros c [<-|[]]. reflexivity.
Defined.

(** ** Edge cases and invariants of [main] *)

(** X12. A file whose first line holds no comma, an empty file among
    them, gives a single token, hence no anagram class, and [main] ends
    on the [ValueError] of line 157. *)
Theorem main_on_single_token fs name line :
  fs name = Some line ->
  count_occ ascii_dec (chars (strip_by is_space line)) ","%char = 0%nat ->
  main fs (PyStr name) = Raise ValueError.
Proof.
  intros Hf Hc. rewrite (main_of_words _ _ _ Hf).
  assert (L : List.length (parse_words line) = 1%nat).
  { unfold parse_words. rewrite length_map, split_on_length, Hc. reflexivity. }
  destruct (main_words_run (parse_words line)) as (tw & _ & Htw & Hrun).
  destruct Hrun as [[_ E]|(d & ts & st & Hne & _)]; [exact E|].
  exfalso. destruct (anagram_table_nonempty _ _ Htw Hne) as (w & w' & Hw & Hw' & N & _).
  destruct (parse_words line) as [|a [|b l]]; simpl in L; try discriminate.
  destruct Hw as [<-|[]], Hw' as [<-|[]]. congruence.
Qed.

Lemma main_on_single_token_witness :
  main (fun _ => Some EmptyString) (PyStr "empty.txt") = Raise ValueError.
Proof.
  apply (main_on_single_token (fun _ => Some EmptyString) "empty.txt" EmptyString);
    reflexivity.
Defined.

(** The best value and the best pair go together: no pair and the value
    0, or a pair and the larger of its two squares, which is positive. *)
Definition consistent_state (st : search_state) : Prop :=
  match snd st with
  | None => fst st = 0%Z
  | Some ((_, s1), (_, s2)) => fst st = Z.max s1 s2 /\ (0 < fst st)%Z
  end.

Lemma try_partner_consistent sbs b w1 s1 st w2 st' :
  consistent_state st -> try_partner sbs b w1 s1 st w2 = Ok st' -> consistent_state st'.
Proof.
  intros Hd. unfold try_partner.
  destruct (String.eqb w2 w1); [intros H; inversion H; subst; auto|].
  destruct (translate b (chars w2)) as [ds|]; [|discriminate]. cbn [bind].
  destruct (dget Nat.eq_dec sbs _) as [sqs|]; [|discriminate].
  destruct (set_mem _ sqs); [|intros H; inversion H; subst; auto].
  destruct (int_ s1) as [i1|]; [|discriminate]. cbn [bind].
  destruct (int_ (join ds)) as [i2|]; [|discriminate]. cbn [bind].
  destruct (Z.gtb_spec (Z.max i1 i2) (fst st)) as [G|G];
    intros H; inversion H; subst; auto.
  unfold consistent_state in *. simpl. split; auto.
  destruct (snd st) as [[[a x] [c y]]|]; lia.
Qed.

(** X13. On any two tables, well formed or not, a search that ends
    leaves [s_best] and [p_best] in step: either no pair was recorded
    and [s_best] is still 0, or [s_best] is the larger square of the
    recorded pair and is positive. *)
Theorem pair_search_state_consistent tw ts st :
  pair_search tw ts = Ok st -> consistent_state st.
Proof.
  unfold pair_search. apply for_each_preserves; [|reflexivity].
  intros w1 s s' _ Hs. unfold try_word. apply for_each_preserves; auto.
  intros s1 s0 s0' _ Hs0. unfold try_square.
  destruct (_ || _)%bool; [intros H; inversion H; subst; auto|].
  apply for_each_preserves; auto.
  intros w2 a a' _. apply try_partner_consistent.
Qed.

Lemma pair_search_state_consistent_witness :
  consistent_state (9216%Z, Some (("CARE", 1296%Z), ("RACE", 9216%Z))).
Proof.
  apply (pair_search_state_consistent
           (table_of ["CARE"; "RACE"]) (table_of (square_strings 4))).
  vm_compute. reflexivity.
Defined.

Lemma same_words_same_keys l l' t t' n :
  (forall w, In w l <-> In w l') ->
  anagram_table l t -> anagram_table l' t' ->
  In n (dkeys t) -> In n (dkeys t').
Proof.
  intros E Ht Ht' Hn.
  apply (anagram_table_same_words l' l) in Ht'; [|intros x; symmetry; apply E].
  pose proof Ht as ((Hnd & Hinner) & _).
  unfold dkeys in Hn. apply in_map_iff in Hn. destruct Hn as ([n' inner] & En & Hin).
  simpl in En; subst n'. destruct (Hinner _ _ Hin) as [Hndi Hne].
  destruct inner as [|[k cls] inner]; [congruence|].
  assert (Hg : tget t n k = Some cls).
  { apply tget_In; [split; auto|]. exists ((k, cls) :: inner). simpl; auto. }
  pose proof Ht as (_ & Hcls & _). destruct (Hcls _ _ _ Hg) as (_ & _ & H2 & _).
  destruct cls as [|a cls]; [simpl in H2; lia|].
  assert (M : member l n k a).
  { apply (anagram_table_member _ _ n k a Ht). exists (a :: cls). simpl; auto. }
  apply (anagram_table_member _ _ n k a Ht') in M. destruct M as (cls' & Hg' & _).
  unfold tget in Hg'. destruct (dget Nat.eq_dec t' n) as [inner'|] eqn:Eg; [|discriminate].
  apply dget_In in Eg. unfold dkeys. apply in_map_iff. exists (n, inner'). auto.
Qed.

(** X14. The outcome of [main] does not depend on the order of the
    words in the file nor on repeated words: on two files with the same
    set of words, [main] either raises the same exception on both, or
    returns on both a pair with the same larger square. *)
Theorem main_ignores_order_and_repeats fs name line fs' name' line' :
  fs name = Some line -> fs' name' = Some line' ->
  (forall w, In w (parse_words line) <-> In w (parse_words line')) ->
  match main fs (PyStr name), main fs' (PyStr name') with
  | Ok ((_, _, i1), (_, _, i2)), Ok ((_, _, j1), (_, _, j2)) =>
      Z.max i1 i2 = Z.max j1 j2
  | Raise e, Raise e' => e = e'
  | _, _ => False
  end.
Proof.
  intros Hf Hf' E.
  rewrite (main_of_words _ _ _ Hf), (main_of_words _ _ _ Hf').
  destruct (main_words_run (parse_words line)) as (tw & _ & Htw & Hrun).
  destruct (main_words_run (parse_words line')) as (tw' & _ & Htw' & Hrun').
  assert (Hk : forall n, In n (dkeys tw) <-> In n (dkeys tw')).
  { intros n. split.
    - apply (same_words_same_keys _ _ _ _ n E Htw Htw').
    - apply (same_words_same_keys (parse_words line') (parse_words line)); auto.
      intros x. symmetry. apply E. }
  destruct Hrun as [[-> R]|(d & ts & st & Hne & Hm & _ & _ & Hts & _ & Hb & R)];
    destruct Hrun' as [[-> R']|(d' & ts' & st' & Hne' & Hm' & _ & _ & Hts' & _ & Hb' & R')];
    rewrite R, R'.
  - reflexivity.
  - exfalso. destruct tw' as [|[n i] tw']; [congruence|].
    apply (proj2 (Hk n)). left. reflexivity.
  - exfalso. destruct tw as [|[n i] tw]; [congruence|].
    apply (proj1 (Hk n)). left. reflexivity.
  - assert (d = d').
    { destruct (max_key_spec _ _ Htw) as [[-> _]|(x & Hx & _ & Hin & Hmax)]; [congruence|].
      destruct (max_key_spec _ _ Htw') as [[-> _]|(x' & Hx' & _ & Hin' & Hmax')];
        [congruence|].
      assert (x = d) by congruence. assert (x' = d') by congruence. subst x x'.
      apply Hk in Hin. apply Hk in Hin'. apply Hmax' in Hin. apply Hmax in Hin'. lia. }
    subst d'.
    apply (anagram_table_same_words (parse_words line') (parse_words line)) in Htw';
      [|intros x; symmetry; apply E].
    assert (Hb2 : best (candidate tw ts) st').
    { eapply best_ext; [|exact Hb'].
      intros c. split; eapply candidate_order_free; eauto. }
    destruct (best_value_unique _ _ _ Hb Hb2) as [V N].
    unfold best in Hb, Hb'.
    destruct (snd st) as [p|], (snd st') as [p'|];
      try (exfalso; destruct N as [N1 N2]; (discriminate (N1 eq_refl) || discriminate (N2 eq_refl))).
    + destruct Hb as (c & Hc & -> & Hv & _). destruct Hb' as (c' & Hc' & -> & Hv' & _).
      destruct c as [[[a1 t1] a2] t2]. destruct c' as [[[b1 u1] b2] u2].
      unfold report, cand_pair. unfold cand_value in Hv, Hv'. congruence.
    + reflexivity.
Qed.

Lemma main_ignores_order_and_repeats_witness :
  match main (fun _ => Some (words_line ["CARE"; "RACE"; "CARE"])) (PyStr "a.txt"),
        main (fun _ => Some (words_line ["RACE"; "CARE"])) (PyStr "b.txt") with
  | Ok ((_, _, i1), (_, _, i2)), Ok ((_, _, j1), (_, _, j2)) =>
      Z.max i1 i2 = Z.max j1 j2
  | Raise e, Raise e' => e = e'
  | _, _ => False
  end.
Proof.
  apply (main_ignores_order_and_repeats
           (fun _ => Some (words_line ["CARE"; "RACE"; "CARE"])) "a.txt"
           (words_line ["CARE"; "RACE"; "CARE"])
           (fun _ => Some (words_line ["RACE"; "CARE"])) "b.txt"
           (words_line ["RACE"; "CARE"])).
  - reflexivity.
  - reflexivity.
  - intros w. vm_compute. tauto.
Defined.

(** ** The singleton tracking of the grouping loop (lines 64-71) *)

(** X15. When the loop over the strings ends, before the purge, the
    set [anagram_singletons] holds, once each, exactly the keys whose
    class has one member; every class holds exactly the strings of the
    list with its key, without repetition, under the length of that
    key; and every string of the list is in its class. *)
Theorem singleton_tracking_exact l st :
  st = fold_left group_step l ([], []) ->
  NoDup (snd st) /\
  (forall k, In k (snd st) <->
     exists cls, tget (fst st) (String.length k) k = Some cls /\
                 List.length cls = 1%nat) /\
  (forall n k cls, tget (fst st) n k = Some cls ->
     n = String.length k /\ NoDup cls /\
     forall w, In w cls <-> In w l /\ class_key w = k) /\
  (forall w, In w l ->
     exists cls, tget (fst st) (String.length w) (class_key w) = Some cls /\ In w cls).
Proof.
  intros ->. destruct (grouped_fold l) as (_ & Hcls & Hall & Hnd & Hsing).
  split; auto. split; auto. split.
  - intros n k cls H. destruct (Hcls _ _ _ H) as (H1 & H2 & _ & H4). auto.
  - intros w Hw. destruct (Hall w Hw) as (cls & Hc). exists cls. split; auto.
    destruct (Hcls _ _ _ Hc) as (_ & _ & _ & H4). apply H4. auto.
Qed.

Lemma singleton_tracking_exact_witness :
  NoDup (snd (fold_left group_step ["CARE"; "EEL"; "RACE"; "EEL"] ([], []))) /\
  (forall k, In k (snd (fold_left group_step ["CARE"; "EEL"; "RACE"; "EEL"] ([], []))) <->
     exists cls,
       tget (fst (fold_left group_step ["CARE"; "EEL"; "RACE"; "EEL"] ([], [])))
            (String.length k) k = Some cls /\
       List.length cls = 1%nat).
Proof.
  destruct (singleton_tracking_exact ["CARE"; "EEL"; "RACE"; "EEL"] _ eq_refl)
    as (H1 & H2 & _).
  exact (conj H1 H2).
Defined.
